(* Easy UCP: catalog ingestion pipeline and checkout state machine.

   Shallow embedding of
     - src/server/routes/ucp.js            (Express routes: discovery, legacy
                                            checkout routes, CSV/JSON upload,
                                            purge of a merchant's products)
     - src/app/lib/ucp/validation.ts       (validateCheckoutStatus)
     - src/app/routes/api.ucp.v1.$.tsx     (Remix checkout routes)

   Storage (Supabase) is modelled as an explicit database value threaded
   through the handlers, together with a log of the statements the handlers
   issue.  A batch insert may fail: this is an oracle indexed by the number of
   the insert statement within the request.  Other statements are modelled as
   succeeding. *)

From Stdlib Require Import String Ascii List ZArith Bool Arith Lia Sorted.
Import ListNotations.

Local Open Scope bool_scope.
Local Set Warnings "-register-all".

(* ------------------------------------------------------------------------- *)
(** * JavaScript values *)

Module JS.

(** A finite number [mant * 10 ^ exp10], kept exact (IEEE rounding is not
    modelled; it never turns a number into NaN). *)
Record dec := Dec { mant : Z; exp10 : Z }.

(** Results of [parseFloat]. *)
Inductive num := NaN | Infinity (neg : bool) | Fin (d : dec).

(** JSON values as produced by [express.json()] / [JSON.parse]. *)
Inductive jval :=
| JNull
| JBool (b : bool)
| JNum (d : dec)
| JStr (s : string)
| JArr (xs : list jval)
| JObj (fields : list (string * jval)).

(** Evaluation that may throw a [TypeError]. *)
Inductive res (A : Type) := Ret (a : A) | TypeError.
Arguments Ret {A} a.
Arguments TypeError {A}.

Definition bind {A B} (m : res A) (k : A -> res B) : res B :=
  match m with Ret a => k a | TypeError => TypeError end.

Notation "x <- m ;; k" := (bind m (fun x => k))
  (at level 61, m at next level, right associativity).

(** Property lookup in an association list; the last binding wins, as in
    [JSON.parse] and in csv-parse records with duplicate column names. *)
Fixpoint assoc_last {A} (k : string) (fs : list (string * A)) : option A :=
  match fs with
  | [] => None
  | (k', v) :: r =>
      match assoc_last k r with
      | Some v' => Some v'
      | None => if String.eqb k k' then Some v else None
      end
  end.

(** [v.k] on a JSON value: [None] is [undefined]; reading a property of
    [null] throws. *)
Definition jget (v : jval) (k : string) : res (option jval) :=
  match v with
  | JNull => TypeError
  | JObj fs => Ret (assoc_last k fs)
  | _ => Ret None
  end.

(** JS truthiness of a possibly undefined value. *)
Definition truthy (v : option jval) : bool :=
  match v with
  | None | Some JNull => false
  | Some (JBool b) => b
  | Some (JNum d) => negb (Z.eqb (mant d) 0)
  | Some (JStr s) => negb (String.eqb s "")
  | Some (JArr _) | Some (JObj _) => true
  end.

Definition truthy_num (n : num) : bool :=
  match n with
  | NaN => false
  | Infinity _ => true
  | Fin d => negb (Z.eqb (mant d) 0)
  end.

Definition isNaN (n : num) : bool :=
  match n with NaN => true | _ => false end.

(** StrWhiteSpaceChar restricted to ASCII: TAB, LF, VT, FF, CR, SPACE. *)
Definition is_ws (c : ascii) : bool :=
  let n := nat_of_ascii c in ((9 <=? n) && (n <=? 13)) || (n =? 32).

Fixpoint drop_ws (l : list ascii) : list ascii :=
  match l with
  | c :: r => if is_ws c then drop_ws r else l
  | [] => []
  end.

(** [String.prototype.trim]. *)
Definition trim (s : string) : string :=
  string_of_list_ascii
    (rev (drop_ws (rev (drop_ws (list_ascii_of_string s))))).

Definition upcase_char (c : ascii) : ascii :=
  let n := nat_of_ascii c in
  if (97 <=? n) && (n <=? 122) then ascii_of_nat (n - 32) else c.

(** [String.prototype.toUpperCase] on ASCII. *)
Definition toUpperCase (s : string) : string :=
  string_of_list_ascii (map upcase_char (list_ascii_of_string s)).

(** ** parseFloat *)

Definition is_digit (c : ascii) : bool :=
  let n := nat_of_ascii c in (48 <=? n) && (n <=? 57).

Fixpoint span_digits (l : list ascii) : list nat * list ascii :=
  match l with
  | c :: r =>
      if is_digit c then
        let '(ds, rest) := span_digits r in ((nat_of_ascii c - 48) :: ds, rest)
      else ([], l)
  | [] => ([], [])
  end.

Definition digits_value (ds : list nat) : Z :=
  fold_left (fun acc d => acc * 10 + Z.of_nat d)%Z ds 0%Z.

(** An optional ExponentPart; it is only consumed when at least one digit
    follows [e] and its optional sign (longest valid prefix). *)
Definition parse_exponent (l : list ascii) : Z :=
  match l with
  | c :: r =>
      if Ascii.eqb c "e"%char || Ascii.eqb c "E"%char then
        let '(sgn, r') :=
          match r with
          | s :: r'' =>
              if Ascii.eqb s "+"%char then (1%Z, r'')
              else if Ascii.eqb s "-"%char then ((-1)%Z, r'')
              else (1%Z, r)
          | [] => (1%Z, r)
          end in
        match span_digits r' with
        | ([], _) => 0%Z
        | (ds, _) => (sgn * digits_value ds)%Z
        end
      else 0%Z
  | [] => 0%Z
  end.

Fixpoint starts_with (p l : list ascii) : bool :=
  match p, l with
  | [], _ => true
  | c :: p', d :: l' => Ascii.eqb c d && starts_with p' l'
  | _ :: _, [] => false
  end.

(** StrUnsignedDecimalLiteral, longest prefix. *)
Definition parse_unsigned (l : list ascii) : num :=
  if starts_with (list_ascii_of_string "Infinity") l then Infinity false
  else
    let '(d1, r1) := span_digits l in
    let '(d2, r2) :=
      match r1 with
      | c :: r => if Ascii.eqb c "."%char then span_digits r else ([], r1)
      | [] => ([], r1)
      end in
    match d1, d2 with
    | [], [] => NaN
    | _, _ =>
        Fin (Dec (digits_value (d1 ++ d2))
                 (parse_exponent r2 - Z.of_nat (length d2)))
    end.

Definition negate (n : num) : num :=
  match n with
  | NaN => NaN
  | Infinity b => Infinity (negb b)
  | Fin d => Fin (Dec (- mant d) (exp10 d))
  end.

(** [parseFloat] on a string. *)
Definition parseFloat (s : string) : num :=
  match drop_ws (list_ascii_of_string s) with
  | c :: r =>
      if Ascii.eqb c "-"%char then negate (parse_unsigned r)
      else if Ascii.eqb c "+"%char then parse_unsigned r
      else parse_unsigned (c :: r)
  | [] => NaN
  end.

(** [parseFloat] on an arbitrary value: the argument is first converted
    with ToString.  [undefined], [null], booleans and objects print as
    non-numeric text; a number prints as a literal of itself; an array prints
    as its elements joined by [","], and since [","] cannot continue a numeric
    literal the result is that of its first element ([null] elements print
    as the empty string). *)
Fixpoint parseFloat_jval (v : jval) : num :=
  match v with
  | JNull | JBool _ | JObj _ => NaN
  | JNum d => Fin d
  | JStr s => parseFloat s
  | JArr [] => NaN
  | JArr (x :: _) => parseFloat_jval x
  end.

Definition parseFloat_val (v : option jval) : num :=
  match v with None => NaN | Some x => parseFloat_jval x end.

End JS.

(* ------------------------------------------------------------------------- *)
(** * Catalog store (tables easy_ucp_merchants and easy_ucp_products) *)

Module Catalog.
Import JS.

Record product := {
  merchant_id : string;
  name : string;
  description : option string;
  price : num;
  currency : string;
  url : string;
  image_url : option string;
  sku : option string;
  category : option string;
  brand : option string;
  active : bool
}.

Record merchant := {
  m_id : string;
  slug : string;
  product_count : nat;
  is_active : bool
}.

(** Statements a handler issues against the store. *)
Inductive op :=
| OpDeleteProducts (mid : string)
| OpDeleteFailed (mid : string)
| OpInsert (batch : list product) (ok : bool)
| OpCountActive (mid : string) (result : nat)
| OpSetProductCount (mid : string) (v : nat).

Record db := {
  products_tbl : list product;
  merchants_tbl : list merchant;
  oplog : list op
}.

Definition log (o : op) (st : db) : db :=
  {| products_tbl := products_tbl st; merchants_tbl := merchants_tbl st;
     oplog := oplog st ++ [o] |}.

Definition of_merchant (mid : string) (p : product) : bool :=
  String.eqb (merchant_id p) mid.

(** [.from('easy_ucp_products').delete().eq('merchant_id', mid)] *)
Definition delete_products (mid : string) (st : db) : db :=
  {| products_tbl := filter (fun p => negb (of_merchant mid p)) (products_tbl st);
     merchants_tbl := merchants_tbl st;
     oplog := oplog st ++ [OpDeleteProducts mid] |}.

(** The same delete answered with an error: no row is removed. *)
Definition delete_failed (mid : string) (st : db) : db := log (OpDeleteFailed mid) st.

(** [.from('easy_ucp_products').insert(batch)], succeeding. *)
Definition insert_rows (batch : list product) (st : db) : db :=
  {| products_tbl := products_tbl st ++ batch;
     merchants_tbl := merchants_tbl st;
     oplog := oplog st ++ [OpInsert batch true] |}.

(** [select('*', {count: 'exact', head: true}).eq('merchant_id', mid)
    .eq('active', true)] *)
Definition count_active (mid : string) (tbl : list product) : nat :=
  length (filter (fun p => of_merchant mid p && active p) tbl).

(** [.from('easy_ucp_merchants').update({product_count: v}).eq('id', mid)] *)
Definition set_product_count (mid : string) (v : nat) (st : db) : db :=
  {| products_tbl := products_tbl st;
     merchants_tbl :=
       map (fun m => if String.eqb (m_id m) mid then
                       {| m_id := m_id m; slug := slug m; product_count := v;
                          is_active := is_active m |}
                     else m) (merchants_tbl st);
     oplog := oplog st ++ [OpSetProductCount mid v] |}.

End Catalog.

(* ------------------------------------------------------------------------- *)
(** * Ingestion pipeline: POST /api/products/upload and POST /api/products/json *)

Module Ingest.
Import JS Catalog.
Local Open Scope string_scope.
Local Open Scope list_scope.

Definition REQUIRED_COLUMNS : list string := ["name"; "price"; "url"].
Definition OPTIONAL_COLUMNS : list string :=
  ["description"; "currency"; "image_url"; "sku"; "category"; "brand"].

Definition batchSize : nat := 100.

(** Row-level validation errors.  [ErrMissingName "Row" n] renders as
    [Row n: missing name]; [ErrInvalidPrice "Row" n (Some raw)] as
    [Row n: invalid price "raw"] (CSV) and [ErrInvalidPrice "Product" n None]
    as [Product n: invalid price] (JSON). *)
Inductive row_error :=
| ErrMissingName (label : string) (n : nat)
| ErrInvalidPrice (label : string) (n : nat) (raw : option (option string))
| ErrMissingUrl (label : string) (n : nat).

Definition error_row (e : row_error) : nat :=
  match e with
  | ErrMissingName _ n | ErrInvalidPrice _ n _ | ErrMissingUrl _ n => n
  end.

Inductive response :=
| R400_NoFile
| R400_ParseError
| R400_Empty
| R400_MissingColumns (missing : list string) (found : list string)
| R400_Validation (errors : list row_error) (total_errors : nat)
| R400_NoProductsArray
| R500_InsertFailed (inserted_so_far : nat)
| R500_Internal
| R201_Uploaded (products_uploaded : nat) (total_active_products : nat)
                (replace : bool).

(** The authenticated merchant ([req.merchant]). *)
Definition merchant_ctx := merchant.

(** Outcome of the insert loop. *)
Inductive insert_outcome := AllInserted (n : nat) | InsertFailedAt (n : nat).

(** The loop
      for (let i = 0; i < products.length; i += batchSize) {
        const batch = products.slice(i, i + batchSize);
        const { error } = await supabase.from(..).insert(batch);
        if (error) return 500 {inserted_so_far: inserted};
        inserted += batch.length;
      }
    [fails k] says whether the [k]-th insert statement of the request
    (0-based) fails; a failing statement inserts nothing.  [fuel] bounds the
    iterations; [length products] iterations always suffice. *)
Fixpoint insert_loop (fails : nat -> bool) (products : list product)
    (fuel i inserted k : nat) (st : db) : db * insert_outcome :=
  match fuel with
  | O => (st, AllInserted inserted)
  | S f =>
      if Nat.ltb i (length products) then
        let batch := firstn batchSize (skipn i products) in
        if fails k then (log (OpInsert batch false) st, InsertFailedAt inserted)
        else insert_loop fails products f (i + batchSize)
               (inserted + length batch) (S k) (insert_rows batch st)
      else (st, AllInserted inserted)
  end.

(** The common tail of both upload handlers, run once validation passed:
    replace-mode delete, batched insert, recount of active products.
    [del_fails] says whether the replace-mode delete statement fails; the
    handlers do not read its result (lines 483-488 and 586-590), so the
    inserts follow either way. *)
Definition commit (del_fails : bool) (fails : nat -> bool) (m : merchant_ctx)
    (replace : bool) (products : list product) (st : db) : db * response :=
  let st1 :=
    if replace then
      (if del_fails then delete_failed (m_id m) st else delete_products (m_id m) st)
    else st in
  match insert_loop fails products (length products) 0 0 0 st1 with
  | (st2, InsertFailedAt n) => (st2, R500_InsertFailed n)
  | (st2, AllInserted n) =>
      let count := count_active (m_id m) (products_tbl st2) in
      let st3 := log (OpCountActive (m_id m) count) st2 in
      let st4 := set_product_count (m_id m) count st3 in
      (st4, R201_Uploaded n count replace)
  end.

(** [req.query.replace === 'true'] *)
Definition replace_flag (q : option string) : bool :=
  match q with Some s => String.eqb s "true" | None => false end.

(** ** CSV upload *)

(** A record produced by csv-parse with [columns: true, trim: true]. *)
Definition csv_record := list (string * string).

(** [row.k] *)
Definition field (row : csv_record) (k : string) : option string :=
  assoc_last k row.

(** [row.k || ''] *)
Definition or_empty (v : option string) : string :=
  match v with Some s => s | None => "" end.

(** [!row.k || !row.k.trim()] *)
Definition blank (v : option string) : bool :=
  match v with
  | None => true
  | Some s => String.eqb s "" || String.eqb (trim s) ""
  end.

(** [(row.k || '').trim() || null] *)
Definition opt_trim (v : option string) : option string :=
  let t := trim (or_empty v) in if String.eqb t "" then None else Some t.

(** [parseFloat(x) || 0] *)
Definition price_or_zero (n : num) : num :=
  if truthy_num n then n else Fin (Dec 0 0).

(** [parseFloat(row.price)]; [undefined] converts to a non-numeric text. *)
Definition parse_price_field (v : option string) : num :=
  match v with Some s => parseFloat s | None => NaN end.

(** [!row.price || isNaN(parseFloat(row.price))] *)
Definition csv_price_invalid (v : option string) : bool :=
  match v with
  | None => true
  | Some s => String.eqb s "" || isNaN (parseFloat s)
  end.

(** The per-row checks of lines 450-458, for [rowNum = index + 2]. *)
Definition csv_row_errors (rowNum : nat) (row : csv_record) : list row_error :=
  (if blank (field row "name") then [ErrMissingName "Row" rowNum] else []) ++
  (if csv_price_invalid (field row "price")
   then [ErrInvalidPrice "Row" rowNum (Some (field row "price"))] else []) ++
  (if blank (field row "url") then [ErrMissingUrl "Row" rowNum] else []).

(** The normalised product of lines 460-472. *)
Definition csv_product (mid : string) (row : csv_record) : product :=
  {| merchant_id := mid;
     name := trim (or_empty (field row "name"));
     description := opt_trim (field row "description");
     price := price_or_zero (parse_price_field (field row "price"));
     currency :=
       toUpperCase (trim (match field row "currency" with
                          | Some s => if String.eqb s "" then "EUR" else s
                          | None => "EUR"
                          end));
     url := trim (or_empty (field row "url"));
     image_url := opt_trim (field row "image_url");
     sku := opt_trim (field row "sku");
     category := opt_trim (field row "category");
     brand := opt_trim (field row "brand");
     active := true |}.

(** [records.map((row, index) => ...)] collecting [errors] on the side. *)
Fixpoint csv_validate (mid : string) (index : nat) (rows : list csv_record)
    : list row_error * list product :=
  match rows with
  | [] => ([], [])
  | row :: rest =>
      let '(errs, prods) := csv_validate mid (S index) rest in
      (csv_row_errors (index + 2) row ++ errs, csv_product mid row :: prods)
  end.

(** [Object.keys(record)]: column names, first occurrence first. *)
Fixpoint keys_aux (seen : list string) (r : csv_record) : list string :=
  match r with
  | [] => rev seen
  | (k, _) :: rest =>
      if existsb (String.eqb k) seen then keys_aux seen rest
      else keys_aux (k :: seen) rest
  end.

Definition keys (r : csv_record) : list string := keys_aux [] r.

Definition missing_columns (columns : list string) : list string :=
  filter (fun c => negb (existsb (String.eqb c) columns)) REQUIRED_COLUMNS.

(** The uploaded file as seen after multer and csv-parse. *)
Inductive csv_file := NoFile | Unparseable | Records (rs : list csv_record).

(** POST /api/products/upload, after [authenticateMerchant]. *)
Definition upload_csv (del_fails : bool) (fails : nat -> bool) (m : merchant_ctx)
    (replace_q : option string) (file : csv_file) (st : db) : db * response :=
  match file with
  | NoFile => (st, R400_NoFile)
  | Unparseable => (st, R400_ParseError)
  | Records [] => (st, R400_Empty)
  | Records ((r0 :: _) as records) =>
      let columns := keys r0 in
      match missing_columns columns with
      | _ :: _ as missing => (st, R400_MissingColumns missing columns)
      | [] =>
          let '(errors, products) := csv_validate (m_id m) 0 records in
          match errors with
          | _ :: _ => (st, R400_Validation (firstn 20 errors) (length errors))
          | [] => commit del_fails fails m (replace_flag replace_q) products st
          end
      end
  end.

(** ** JSON upload *)

(** [(v || '').trim()]: a truthy non-string has no [trim] method. *)
Definition json_trim (v : option jval) : res string :=
  if truthy v then
    match v with Some (JStr s) => Ret (trim s) | _ => TypeError end
  else Ret "".

(** [(v || '').trim() || null] *)
Definition json_opt_trim (v : option jval) : res (option string) :=
  t <- json_trim v ;; Ret (if String.eqb t "" then None else Some t).

(** [(v || 'EUR').trim().toUpperCase()] *)
Definition json_currency (v : option jval) : res string :=
  if truthy v then
    match v with Some (JStr s) => Ret (toUpperCase (trim s)) | _ => TypeError end
  else Ret "EUR".

(** The body of the [inputProducts.map] callback, lines 558-574, for
    [n = index + 1]: its errors and the product it returns. *)
Definition json_item (mid : string) (n : nat) (item : jval)
    : res (list row_error * product) :=
  nm <- jget item "name" ;;
  let e1 := if truthy nm then [] else [ErrMissingName "Product" n] in
  pr <- jget item "price" ;;
  let e2 := if match pr with None => true | Some _ => false end
               || isNaN (parseFloat_val pr)
            then [ErrInvalidPrice "Product" n None] else [] in
  u <- jget item "url" ;;
  let e3 := if truthy u then [] else [ErrMissingUrl "Product" n] in
  name' <- json_trim nm ;;
  dv <- jget item "description" ;; desc <- json_opt_trim dv ;;
  cv <- jget item "currency" ;; cur <- json_currency cv ;;
  url' <- json_trim u ;;
  iv <- jget item "image_url" ;; img <- json_opt_trim iv ;;
  sv <- jget item "sku" ;; sku' <- json_opt_trim sv ;;
  gv <- jget item "category" ;; cat <- json_opt_trim gv ;;
  bv <- jget item "brand" ;; br <- json_opt_trim bv ;;
  Ret (e1 ++ e2 ++ e3,
       {| merchant_id := mid; name := name'; description := desc;
          price := price_or_zero (parseFloat_val pr); currency := cur;
          url := url'; image_url := img; sku := sku'; category := cat;
          brand := br; active := true |}).

(** [inputProducts.map((item, index) => ...)]; a throw aborts the map. *)
Fixpoint json_validate (mid : string) (index : nat) (items : list jval)
    : res (list row_error * list product) :=
  match items with
  | [] => Ret ([], [])
  | item :: rest =>
      r <- json_item mid (S index) item ;;
      rs <- json_validate mid (S index) rest ;;
      Ret (fst r ++ fst rs, snd r :: snd rs)
  end.

(** POST /api/products/json, after [authenticateMerchant]; a [TypeError]
    thrown in the handler is answered by the [catch] with a 500. *)
Definition upload_json (del_fails : bool) (fails : nat -> bool) (m : merchant_ctx)
    (replace_q : option string) (body : jval) (st : db) : db * response :=
  match jget body "products" with
  | TypeError => (st, R500_Internal)
  | Ret (Some (JArr ((_ :: _) as items))) =>
      match json_validate (m_id m) 0 items with
      | TypeError => (st, R500_Internal)
      | Ret (errors, products) =>
          match errors with
          | _ :: _ => (st, R400_Validation (firstn 20 errors) (length errors))
          | [] => commit del_fails fails m (replace_flag replace_q) products st
          end
      end
  | Ret _ => (st, R400_NoProductsArray)
  end.

(** ** DELETE /api/products/mine *)

(** The delete of the merchant's products, then [product_count: 0]. *)
Definition purge_mine (m : merchant_ctx) (st : db) : db :=
  set_product_count (m_id m) 0 (delete_products (m_id m) st).

End Ingest.

(* ------------------------------------------------------------------------- *)
(** * Checkout sessions (table easy_ucp_checkout_sessions) *)

Module Checkout.
Import JS.
Local Open Scope string_scope.
Local Open Scope list_scope.

Inductive status := Incomplete | ReadyForComplete | Completed.

Definition status_eqb (a b : status) : bool :=
  match a, b with
  | Incomplete, Incomplete | ReadyForComplete, ReadyForComplete
  | Completed, Completed => true
  | _, _ => false
  end.

(** A stored session; JSON columns hold JSON values, [None] is SQL NULL. *)
Record session := {
  status_of : status;
  line_items : jval;
  buyer_info : option jval;
  shipping_address : option jval;
  payment_method : option jval;
  order_id : option string
}.

Inductive severity := Recoverable | RequiresBuyerInput | RequiresBuyerReview.

(** The object built by [createUCPError]. *)
Record message := {
  msg_type : string;
  code : string;
  path : string;
  content : string;
  msg_severity : severity
}.

Definition createUCPError (code path content : string) (sev : severity) : message :=
  {| msg_type := "error"; code := code; path := path; content := content;
     msg_severity := sev |}.

Inductive response :=
| NotFound                                   (* 404 Session not found *)
| InvalidRequest                             (* 400 Invalid request *)
| NotReadyGeneric                            (* 400 {error: 'Not ready'} *)
| NotReady (messages : list message)         (* 400 with messages *)
| Updated (st : status) (messages : list message)   (* 200 *)
| CompletedOk (order_id : string).           (* 200 status completed *)

(** [session.buyer_info.email] is truthy; [buyer_info] itself is checked
    first, and a truthy JSON value never throws on property access. *)
Definition has_buyer_email (b : option jval) : bool :=
  truthy b &&
  match b with
  | Some v => match jget v "email" with Ret e => truthy e | TypeError => false end
  | None => false
  end.

(** [validateCheckoutStatus] (validation.ts, lines 71-115). *)
Definition validateCheckoutStatus (s : session) : status * list message :=
  let messages :=
    (if has_buyer_email (buyer_info s) then []
     else [createUCPError "missing" "$.buyer.email" "Buyer email is required"
             Recoverable]) ++
    (if truthy (shipping_address s) then []
     else [createUCPError "missing" "$.shipping_address"
             "Shipping address is required" RequiresBuyerInput]) ++
    (if truthy (payment_method s) then []
     else [createUCPError "missing" "$.payment_method"
             "Payment method is required" RequiresBuyerInput]) in
  let st :=
    if status_eqb (status_of s) Completed then Completed
    else match messages with [] => ReadyForComplete | _ => Incomplete end in
  (st, messages).

Definition computed_status (s : session) : status := fst (validateCheckoutStatus s).

Definition with_fields (s : session) (st : status) (li : jval)
    (b sh p : option jval) (oid : option string) : session :=
  {| status_of := st; line_items := li; buyer_info := b;
     shipping_address := sh; payment_method := p; order_id := oid |}.

(** [if (v) updates.k = v]: the stored value after the update. *)
Definition apply_if_truthy (v old : option jval) : option jval :=
  if truthy v then v else old.

(** ** Express routes (src/server/routes/ucp.js) *)

(** The fields destructured from [req.body] by the PUT route. *)
Record express_body := {
  eb_buyer_info : option jval;
  eb_shipping_address : option jval;
  eb_payment_method : option jval
}.

(** PUT /api/ucp/v1/checkout-sessions/:id (lines 274-317); the argument is
    the row selected by [session_id], the result the row after the update. *)
Definition express_update (row : option session) (b : express_body)
    : option session * response :=
  match row with
  | None => (None, NotFound)
  | Some s =>
      let st :=
        if truthy (eb_buyer_info b) && truthy (eb_shipping_address b)
           && truthy (eb_payment_method b)
        then ReadyForComplete else status_of s in
      let s' := with_fields s st (line_items s)
                  (apply_if_truthy (eb_buyer_info b) (buyer_info s))
                  (apply_if_truthy (eb_shipping_address b) (shipping_address s))
                  (apply_if_truthy (eb_payment_method b) (payment_method s))
                  (order_id s) in
      (Some s', Updated (status_of s') [])
  end.

(** POST /api/ucp/v1/checkout-sessions/:id/complete (lines 323-354);
    [orderId] is [`order_${Date.now()}`]. *)
Definition express_complete (orderId : string) (row : option session)
    : option session * response :=
  match row with
  | Some s =>
      if status_eqb (status_of s) ReadyForComplete then
        (Some (with_fields s Completed (line_items s) (buyer_info s)
                 (shipping_address s) (payment_method s) (Some orderId)),
         CompletedOk orderId)
      else (row, NotReadyGeneric)
  | None => (row, NotReadyGeneric)
  end.

(** ** Remix routes (src/app/routes/api.ucp.v1.$.tsx) *)

(** The data of a body accepted by [CheckoutSessionUpdateSchema]; a body
    the schema rejects is [None].  Values are kept as JSON: the route stores
    [JSON.stringify(v)] and reads back [JSON.parse] of it. *)
Record update_req := {
  u_line_items : option jval;
  u_buyer_info : option jval;
  u_shipping_address : option jval;
  u_payment_method : option jval
}.

(** handleUpdateCheckout (lines 104-186). *)
Definition remix_update (req : option update_req) (row : option session)
    : option session * response :=
  match req with
  | None => (row, InvalidRequest)
  | Some u =>
      match row with
      | None => (None, NotFound)
      | Some s =>
          let updated :=
            with_fields s (status_of s)
              (match u_line_items u with
               | Some li => if truthy (Some li) then li else line_items s
               | None => line_items s
               end)
              (apply_if_truthy (u_buyer_info u) (buyer_info s))
              (apply_if_truthy (u_shipping_address u) (shipping_address s))
              (apply_if_truthy (u_payment_method u) (payment_method s))
              (order_id s) in
          let '(st, messages) := validateCheckoutStatus updated in
          let final :=
            if status_eqb st (status_of updated) then updated
            else with_fields updated st (line_items updated) (buyer_info updated)
                   (shipping_address updated) (payment_method updated)
                   (order_id updated) in
          (Some final, Updated st messages)
      end
  end.

(** handleCompleteCheckout (lines 189-248); [orderId] is
    [`order_${nanoid()}`]. *)
Definition remix_complete (orderId : string) (row : option session)
    : option session * response :=
  match row with
  | None => (None, NotFound)
  | Some s =>
      let '(st, messages) := validateCheckoutStatus s in
      if status_eqb st ReadyForComplete then
        (Some (with_fields s Completed (line_items s) (buyer_info s)
                 (shipping_address s) (payment_method s) (Some orderId)),
         CompletedOk orderId)
      else (row, NotReady messages)
  end.

(** A sequence of PUT requests against one session row. *)
Fixpoint express_run (s : session) (bs : list express_body) : session :=
  match bs with
  | [] => s
  | b :: r =>
      match fst (express_update (Some s) b) with
      | Some s' => express_run s' r
      | None => s
      end
  end.

Fixpoint remix_run (s : session) (us : list (option update_req)) : session :=
  match us with
  | [] => s
  | u :: r =>
      match fst (remix_update u (Some s)) with
      | Some s' => remix_run s' r
      | None => s
      end
  end.

End Checkout.

(* ------------------------------------------------------------------------- *)
(** * Listings: GET /api/ucp/v1/:slug/products and GET /api/products/mine *)

Module Feed.
Import JS.
Local Open Scope string_scope.
Local Open Scope list_scope.

(** A value of [req.query]: a string, an array for a repeated key, an object
    for a bracketed key. *)
Inductive qval := QStr (s : string) | QArr (xs : list qval) | QObj.

(** [String(v)]: an array joins its elements with [","]. *)
Fixpoint qstring (v : qval) : string :=
  match v with
  | QStr s => s
  | QArr xs =>
      (fix join (xs : list qval) : string :=
         match xs with
         | [] => ""
         | [x] => qstring x
         | x :: r => (qstring x ++ "," ++ join r)%string
         end) xs
  | QObj => "[object Object]"
  end.

Definition hex_digit_value (c : ascii) : option nat :=
  let n := nat_of_ascii c in
  if Nat.leb 48 n && Nat.leb n 57 then Some (n - 48)
  else if Nat.leb 97 n && Nat.leb n 102 then Some (n - 87)
  else if Nat.leb 65 n && Nat.leb n 70 then Some (n - 55)
  else None.

Fixpoint span_hex (l : list ascii) : list nat :=
  match l with
  | c :: r => match hex_digit_value c with Some d => d :: span_hex r | None => [] end
  | [] => []
  end.

Definition hex_value (ds : list nat) : Z :=
  fold_left (fun acc d => acc * 16 + Z.of_nat d)%Z ds 0%Z.

(** [parseInt(s)] with no radix; [None] is [NaN].  Values are exact
    integers (IEEE rounding above 2^53 is not modelled). *)
Definition parseInt (s : string) : option Z :=
  let l := drop_ws (list_ascii_of_string s) in
  let '(sign, l1) :=
    match l with
    | c :: r =>
        if Ascii.eqb c "-"%char then ((-1)%Z, r)
        else if Ascii.eqb c "+"%char then (1%Z, r)
        else (1%Z, l)
    | [] => (1%Z, l)
    end in
  let dec :=
    match fst (span_digits l1) with
    | [] => None
    | ds => Some (sign * digits_value ds)%Z
    end in
  match l1 with
  | z :: x :: r =>
      if Ascii.eqb z "0"%char && (Ascii.eqb x "x"%char || Ascii.eqb x "X"%char)
      then match span_hex r with [] => None | ds => Some (sign * hex_value ds)%Z end
      else dec
  | _ => dec
  end.

(** [parseInt(req.query.k)]; an absent key is [undefined]. *)
Definition parseInt_q (v : option qval) : option Z :=
  match v with None => None | Some q => parseInt (qstring q) end.

(** [parseInt(v) || d]: [NaN] and [0] are falsy. *)
Definition int_or (v : option qval) (d : Z) : Z :=
  match parseInt_q v with
  | Some n => if Z.eqb n 0 then d else n
  | None => d
  end.

(** [page = parseInt(req.query.page) || 1;
     limit = Math.min(parseInt(req.query.limit) || dflt, cap)] *)
Definition page_limit (dflt cap : Z) (qpage qlimit : option qval) : Z * Z :=
  (int_or qpage 1, Z.min (int_or qlimit dflt) cap).

(** The public feed (lines 127-128) and the merchant's own listing
    (lines 644-645). *)
Definition feed_params := page_limit 100 500.
Definition mine_params := page_limit 50 200.

(** [offset = (page - 1) * limit] *)
Definition offset (page limit : Z) : Z := ((page - 1) * limit)%Z.

(** [Math.ceil(count / limit)] for integers, [limit] nonzero. *)
Definition ceil_div (c l : Z) : Z := (- ((- c) / l))%Z.

(** [String(n)] for an integer [n]: decimal digits, [-] for a negative. *)
Fixpoint dec_digits_rev (fuel : nat) (n : Z) : list nat :=
  match fuel with
  | O => []
  | S f =>
      Z.to_nat (n mod 10) ::
      (if Z.eqb (n / 10) 0 then [] else dec_digits_rev f (n / 10))
  end.

Definition digit_char (d : nat) : ascii := ascii_of_nat (48 + d).

Definition show_nonneg (n : Z) : list ascii :=
  map digit_char (rev (dec_digits_rev (S (Z.to_nat (Z.log2 n))) n)).

Definition Z_to_string (n : Z) : string :=
  string_of_list_ascii
    (if Z.ltb n 0 then "-"%char :: show_nonneg (- n) else show_nonneg n).

(** The [pagination] object of a listing reply. *)
Record pagination := {
  pg_page : Z;
  pg_limit : Z;
  pg_total : Z;
  pg_total_pages : Z;
  pg_next : option string
}.

(** Lines 126-129 and 209-215, for the exact [count] of matching rows. *)
Definition feed_pagination (baseUrl slug : string) (qpage qlimit : option qval)
    (count : Z) : pagination :=
  let '(page, limit) := feed_params qpage qlimit in
  {| pg_page := page; pg_limit := limit; pg_total := count;
     pg_total_pages := ceil_div count limit;
     pg_next :=
       if Z.ltb (page * limit) count
       then Some (baseUrl ++ "/api/ucp/v1/" ++ slug ++ "/products?page="
                  ++ Z_to_string (page + 1) ++ "&limit=" ++ Z_to_string limit)%string
       else None |}.

(** Lines 644-646 and 663-669; this listing has no [next] link. *)
Definition mine_pagination (qpage qlimit : option qval) (count : Z) : pagination :=
  let '(page, limit) := mine_params qpage qlimit in
  {| pg_page := page; pg_limit := limit; pg_total := count;
     pg_total_pages := ceil_div count limit; pg_next := None |}.

End Feed.

(* ------------------------------------------------------------------------- *)
(** * API-key authentication (authenticateMerchant) and the routes behind it *)

Module Auth.
Import JS Catalog Ingest.
Local Open Scope string_scope.
Local Open Scope list_scope.

(** A row of easy_ucp_merchants as read by [select('*')], with its
    [api_key] column. *)
Record merchant_row := {
  mrow : merchant;
  api_key : string
}.

(** [.single()]: the data when exactly one row matched, an error otherwise. *)
Definition single {A} (rows : list A) : option A :=
  match rows with [r] => Some r | _ => None end.

Inductive auth_result :=
| MissingKey                   (* 401 Missing X-API-Key header *)
| InvalidKey                   (* 401 Invalid API key *)
| Authenticated (m : merchant). (* req.merchant = m; next() *)

(** authenticateMerchant (ucp.js lines 385-405); [apiKey] is
    [req.headers['x-api-key']]. *)
Definition authenticateMerchant (apiKey : option string)
    (merchants : list merchant_row) : auth_result :=
  match apiKey with
  | None => MissingKey
  | Some k =>
      if String.eqb k "" then MissingKey
      else
        match single (filter (fun r => String.eqb (api_key r) k && is_active (mrow r))
                        merchants) with
        | Some r => Authenticated (mrow r)
        | None => InvalidKey
        end
  end.

Inductive auth_reply (R : Type) :=
| R401_MissingKey
| R401_InvalidKey
| Handled (r : R).
Arguments R401_MissingKey {R}.
Arguments R401_InvalidKey {R}.
Arguments Handled {R} r.

(** [router.METHOD(path, authenticateMerchant, handler)]: the handler runs
    only after [next()]. *)
Definition with_auth {R} (apiKey : option string) (merchants : list merchant_row)
    (handler : merchant -> db -> db * R) (st : db) : db * auth_reply R :=
  match authenticateMerchant apiKey merchants with
  | MissingKey => (st, R401_MissingKey)
  | InvalidKey => (st, R401_InvalidKey)
  | Authenticated m => let '(st', r) := handler m st in (st', Handled r)
  end.

(** POST /api/products/upload (line 410). *)
Definition upload_route (del_fails : bool) (fails : nat -> bool) (apiKey : option string)
    (merchants : list merchant_row) (replace_q : option string) (file : csv_file)
    (st : db) : db * auth_reply response :=
  with_auth apiKey merchants (fun m => upload_csv del_fails fails m replace_q file) st.

(** POST /api/products/json (line 540). *)
Definition json_route (del_fails : bool) (fails : nat -> bool) (apiKey : option string)
    (merchants : list merchant_row) (replace_q : option string) (body : jval)
    (st : db) : db * auth_reply response :=
  with_auth apiKey merchants (fun m => upload_json del_fails fails m replace_q body) st.

(** DELETE /api/products/mine (line 679). *)
Definition delete_mine_route (apiKey : option string) (merchants : list merchant_row)
    (st : db) : db * auth_reply unit :=
  with_auth apiKey merchants (fun m st => (purge_mine m st, tt)) st.

End Auth.

(* ------------------------------------------------------------------------- *)
(** * Express checkout: POST /api/ucp/v1/checkout-sessions *)

Module ExpressCreate.
Import JS Checkout.

Inductive create_response :=
| CreateInvalid                          (* 400 line_items is required ... *)
| CreateFailed                           (* 500 Failed to create checkout session *)
| Created (st : status) (li : jval).     (* 201 *)

(** Lines 226-268: [line_items] is the destructured body field, [insert_ok]
    whether the insert succeeded; the result is the stored row. *)
Definition express_create (line_items : option jval) (insert_ok : bool)
    : option session * create_response :=
  match line_items with
  | Some (JArr ((_ :: _) as xs)) =>
      if insert_ok then
        (Some {| status_of := Incomplete; Checkout.line_items := JArr xs;
                 buyer_info := None; shipping_address := None;
                 payment_method := None; order_id := None |},
         Created Incomplete (JArr xs))
      else (None, CreateFailed)
  | _ => (None, CreateInvalid)
  end.

End ExpressCreate.

(* ------------------------------------------------------------------------- *)
(** * Remix resource route dispatch (api.ucp.v1.$.tsx, [action]) *)

Module Router.
Local Open Scope string_scope.
Local Open Scope list_scope.

Inductive route :=
| CreateCheckout                  (* handleCreateCheckout *)
| UpdateCheckout (id : string)    (* handleUpdateCheckout(request, id) *)
| CompleteCheckout (id : string)  (* handleCompleteCheckout(request, id) *)
| RouteNotFound.                  (* 404 Not found *)

Fixpoint strip_prefix (p l : list ascii) : option (list ascii) :=
  match p, l with
  | [], _ => Some l
  | c :: p', d :: l' => if Ascii.eqb c d then strip_prefix p' l' else None
  | _ :: _, [] => None
  end.

Definition is_slash (c : ascii) : bool := Ascii.eqb c "/"%char.

(** [([^/]+)]: the longest slash-free prefix and the rest. *)
Fixpoint span_noslash (l : list ascii) : list ascii * list ascii :=
  match l with
  | c :: r =>
      if is_slash c then ([], l)
      else let '(a, b) := span_noslash r in (c :: a, b)
  | [] => ([], [])
  end.

Definition sessions_prefix : list ascii := list_ascii_of_string "checkout-sessions/".

(** [path.match(/^checkout-sessions\/([^/]+)$/)], the captured group. *)
Definition match_session (path : string) : option string :=
  match strip_prefix sessions_prefix (list_ascii_of_string path) with
  | Some rest =>
      match span_noslash rest with
      | (c :: id, []) => Some (string_of_list_ascii (c :: id))
      | _ => None
      end
  | None => None
  end.

(** [path.match(/^checkout-sessions\/([^/]+)\/complete$/)], the captured
    group. *)
Definition match_complete (path : string) : option string :=
  match strip_prefix sessions_prefix (list_ascii_of_string path) with
  | Some rest =>
      match span_noslash rest with
      | (c :: id, tl) =>
          if String.eqb (string_of_list_ascii tl) "/complete"
          then Some (string_of_list_ascii (c :: id)) else None
      | _ => None
      end
  | None => None
  end.

(** [action] (lines 251-270); [splat] is [params["*"]]. *)
Definition action (splat : option string) (method : string) : route :=
  let path := match splat with Some p => p | None => "" end in
  if String.eqb path "checkout-sessions" && String.eqb method "POST"
  then CreateCheckout
  else
    match match_session path, String.eqb method "PUT" with
    | Some id, true => UpdateCheckout id
    | _, _ =>
        match match_complete path, String.eqb method "POST" with
        | Some id, true => CompleteCheckout id
        | _, _ => RouteNotFound
        end
    end.

End Router.

(* ------------------------------------------------------------------------- *)
(** * Merchant registration: generateSlug (merchant-auth.js) *)

Module Slug.
Local Open Scope list_scope.

(** Strings are read as sequences of UTF-16 code units below 256 (Latin-1). *)

(** [toLowerCase] on a Latin-1 code unit. *)
Definition toLowerCase_char (c : ascii) : ascii :=
  let n := nat_of_ascii c in
  if (Nat.leb 65 n && Nat.leb n 90) || (Nat.leb 192 n && Nat.leb n 222 && negb (Nat.eqb n 215))
  then ascii_of_nat (n + 32) else c.

(** [[a-z0-9]] *)
Definition is_slug_char (c : ascii) : bool :=
  let n := nat_of_ascii c in (Nat.leb 97 n && Nat.leb n 122) || (Nat.leb 48 n && Nat.leb n 57).

Definition dash : ascii := "-"%char.

(** [.replace(/[^a-z0-9]+/g, '-')]; [in_run] says whether the previous
    character was already part of a replaced run. *)
Fixpoint replace_runs (in_run : bool) (l : list ascii) : list ascii :=
  match l with
  | [] => []
  | c :: r =>
      if is_slug_char c then c :: replace_runs false r
      else if in_run then replace_runs true r
      else dash :: replace_runs true r
  end.

Definition drop_dash (l : list ascii) : list ascii :=
  match l with
  | c :: r => if Ascii.eqb c dash then r else l
  | [] => []
  end.

(** [.replace(/^-|-$/g, '')] *)
Definition strip_dashes (l : list ascii) : list ascii :=
  rev (drop_dash (rev (drop_dash l))).

(** generateSlug (lines 10-16). *)
Definition generateSlug (storeName : string) : string :=
  string_of_list_ascii
    (firstn 50
       (strip_dashes (replace_runs false (map toLowerCase_char (list_ascii_of_string storeName))))).

End Slug.


(* ------------------------------------------------------------------------- *)
(** * Checkout: properties *)

Module CheckoutFacts.
Import JS Checkout.
Local Open Scope string_scope.
Local Open Scope list_scope.

(** A JSON column holds a value (is not NULL / JSON null). *)
Definition populated (v : option jval) : bool :=
  match v with None | Some JNull => false | Some _ => true end.

(** Sample values. *)
Definition sample_items : jval :=
  JArr [JObj [("id", JStr "li_1"); ("quantity", JNum (Dec 1 0));
              ("item", JObj [("id", JStr "p_1"); ("title", JStr "Widget");
                             ("price", JNum (Dec 999 (-2)))])]].
Definition sample_buyer : jval := JObj [("email", JStr "ann@example.com")].
Definition other_buyer : jval := JObj [("email", JStr "bob@example.com")].
Definition sample_address : jval :=
  JObj [("address1", JStr "1 Main St"); ("city", JStr "Oulu");
        ("province", JStr "PO"); ("country", JStr "FI"); ("zip", JStr "90100")].
Definition sample_payment : jval := JObj [("token", JStr "tok_visa")].

Definition mk (st : status) (b sh p : option jval) (oid : option string) : session :=
  {| status_of := st; line_items := sample_items; buyer_info := b;
     shipping_address := sh; payment_method := p; order_id := oid |}.

(** Buyer and shipping stored by earlier updates, payment still missing. *)
Definition s_two_of_three : session :=
  mk Incomplete (Some sample_buyer) (Some sample_address) None None.

Definition s_missing_shipping : session :=
  mk Incomplete (Some sample_buyer) None (Some sample_payment) None.

Definition s_done : session :=
  mk Completed (Some sample_buyer) (Some sample_address) (Some sample_payment)
     (Some "order_1").

Definition only_payment : express_body :=
  {| eb_buyer_info := None; eb_shipping_address := None;
     eb_payment_method := Some sample_payment |}.

Definition new_buyer_req : update_req :=
  {| u_line_items := None; u_buyer_info := Some other_buyer;
     u_shipping_address := None; u_payment_method := None |}.

Example validate_two_of_three :
  map path (snd (validateCheckoutStatus s_two_of_three)) = ["$.payment_method"].
Proof. reflexivity. Qed.

Example validate_missing_shipping :
  map path (snd (validateCheckoutStatus s_missing_shipping)) = ["$.shipping_address"].
Proof. reflexivity. Qed.

(** ** Helper lemmas *)

Lemma truthy_populated v : truthy v = true -> populated v = true.
Proof. destruct v as [[]|]; simpl; congruence. Qed.

Lemma apply_if_truthy_populated v old :
  populated old = true -> populated (apply_if_truthy v old) = true.
Proof.
  unfold apply_if_truthy. destruct (truthy v) eqn:E; auto using truthy_populated.
Qed.

Lemma apply_if_truthy_changed v old :
  apply_if_truthy v old <> old ->
  apply_if_truthy v old = v /\ populated v = true.
Proof.
  unfold apply_if_truthy. destruct (truthy v) eqn:E; [|congruence].
  auto using truthy_populated.
Qed.

Lemma status_eqb_true a b : status_eqb a b = true <-> a = b.
Proof. destruct a, b; simpl; split; congruence. Qed.

Lemma status_eqb_refl a : status_eqb a a = true.
Proof. destruct a; reflexivity. Qed.

(** The recomputed status of a session that is not [completed]. *)
Lemma validate_status_not_completed s :
  status_of s <> Completed ->
  computed_status s =
  if has_buyer_email (buyer_info s) && truthy (shipping_address s)
     && truthy (payment_method s)
  then ReadyForComplete else Incomplete.
Proof.
  intros H. unfold computed_status, validateCheckoutStatus. simpl.
  replace (status_eqb (status_of s) Completed) with false
    by (destruct (status_of s); simpl; congruence).
  destruct (has_buyer_email (buyer_info s)), (truthy (shipping_address s)),
           (truthy (payment_method s)); reflexivity.
Qed.

Lemma validate_status_completed s :
  status_of s = Completed -> computed_status s = Completed.
Proof.
  intros H. unfold computed_status, validateCheckoutStatus. simpl.
  rewrite H. reflexivity.
Qed.

(** The Remix update route recomputes the status from the merged row. *)
Lemma remix_update_recomputes u s :
  status_of s <> Completed ->
  exists s' msgs,
    remix_update (Some u) (Some s) = (Some s', Updated (status_of s') msgs) /\
    status_of s' =
    (if has_buyer_email (buyer_info s') && truthy (shipping_address s')
        && truthy (payment_method s')
     then ReadyForComplete else Incomplete).
Proof.
  intros H. unfold remix_update.
  set (upd := with_fields s (status_of s) _ _ _ _ _).
  assert (Hu : status_of upd <> Completed) by exact H.
  pose proof (validate_status_not_completed upd Hu) as Hc.
  unfold computed_status in Hc.
  destruct (validateCheckoutStatus upd) as [st msgs] eqn:Ev. simpl in Hc.
  destruct (status_eqb st (status_of upd)) eqn:Eq.
  - apply status_eqb_true in Eq.
    exists upd, msgs. split; [rewrite Eq; reflexivity|].
    rewrite <- Eq, Hc. reflexivity.
  - exists (with_fields upd st (line_items upd) (buyer_info upd)
              (shipping_address upd) (payment_method upd) (order_id upd)), msgs.
    split; [reflexivity|]. exact Hc.
Qed.

(** ** Claims *)

(** C1 (code_bug).  The Express PUT route sets [ready_for_complete] only when
    the request itself carries buyer_info, shipping_address and
    payment_method; it never recomputes the status from the merged row.  A
    session holding buyer and shipping from earlier updates that receives the
    payment method keeps status [incomplete], although all three fields are
    present (and [validateCheckoutStatus] rates the merged row
    [ready_for_complete]); the Express complete route then refuses it. *)
Theorem express_update_keeps_stale_status :
  let merged := mk Incomplete (Some sample_buyer) (Some sample_address)
                   (Some sample_payment) None in
  express_update (Some s_two_of_three) only_payment =
    (Some merged, Updated Incomplete []) /\
  computed_status merged = ReadyForComplete /\
  express_complete "order_1" (Some merged) = (Some merged, NotReadyGeneric).
Proof. split; [|split]; reflexivity. Qed.

(** A PUT body carrying a new buyer together with shipping and payment. *)
Definition full_put_new : express_body :=
  {| eb_buyer_info := Some other_buyer; eb_shipping_address := Some sample_address;
     eb_payment_method := Some sample_payment |}.

(** C2 (code_bug).  Neither update route guards a completed session.  The
    Express PUT (ucp.js 274-317) writes the supplied fields into the
    completed row, and when the request carries buyer_info,
    shipping_address and payment_method it sets [ready_for_complete]: the
    session leaves [completed], and the Express complete then completes it
    again with a new order id.  The Remix PUT (api.ucp.v1.$.tsx 104-186)
    accepts the update too and writes the supplied fields into the
    completed row; only its status stays [completed], as
    [validateCheckoutStatus] keeps it. *)
Theorem completed_session_accepts_updates :
  express_update (Some s_done) full_put_new =
    (Some (mk ReadyForComplete (Some other_buyer) (Some sample_address)
              (Some sample_payment) (Some "order_1")),
     Updated ReadyForComplete []) /\
  express_complete "order_2"
    (Some (mk ReadyForComplete (Some other_buyer) (Some sample_address)
              (Some sample_payment) (Some "order_1"))) =
    (Some (mk Completed (Some other_buyer) (Some sample_address)
              (Some sample_payment) (Some "order_2")),
     CompletedOk "order_2") /\
  remix_update (Some new_buyer_req) (Some s_done) =
    (Some (mk Completed (Some other_buyer) (Some sample_address)
              (Some sample_payment) (Some "order_1")),
     Updated Completed []) /\
  (forall s b, truthy (eb_buyer_info b) = true -> truthy (eb_shipping_address b) = true ->
     truthy (eb_payment_method b) = true ->
     exists s', express_update (Some s) b = (Some s', Updated ReadyForComplete []) /\
       status_of s' = ReadyForComplete /\ order_id s' = order_id s) /\
  (forall u s, status_of s = Completed ->
     exists s' msgs,
       remix_update (Some u) (Some s) = (Some s', Updated Completed msgs) /\
       status_of s' = Completed /\ order_id s' = order_id s /\
       buyer_info s' = apply_if_truthy (u_buyer_info u) (buyer_info s) /\
       shipping_address s' = apply_if_truthy (u_shipping_address u) (shipping_address s) /\
       payment_method s' = apply_if_truthy (u_payment_method u) (payment_method s)).
Proof.
  split; [reflexivity|]. split; [reflexivity|]. split; [reflexivity|]. split.
  - intros s b Hb Hs Hp. unfold express_update. rewrite Hb, Hs, Hp. cbn [andb].
    eexists. split; [reflexivity|]. split; reflexivity.
  - intros u s H. unfold remix_update.
    set (upd := with_fields s (status_of s) _ _ _ _ _).
    assert (Hu : status_of upd = Completed) by exact H.
    pose proof (validate_status_completed upd Hu) as Hc.
    unfold computed_status in Hc.
    destruct (validateCheckoutStatus upd) as [st msgs] eqn:Ev. simpl in Hc.
    subst st. rewrite Hu. simpl.
    exists upd, msgs. repeat split; assumption || reflexivity.
Qed.

Lemma in_missing_paths s p :
  In p (map path (snd (validateCheckoutStatus s))) <->
  (p = "$.buyer.email" /\ has_buyer_email (buyer_info s) = false) \/
  (p = "$.shipping_address" /\ truthy (shipping_address s) = false) \/
  (p = "$.payment_method" /\ truthy (payment_method s) = false).
Proof.
  unfold validateCheckoutStatus. simpl.
  destruct (has_buyer_email (buyer_info s)), (truthy (shipping_address s)),
           (truthy (payment_method s)); simpl;
  split; intros Hp; repeat (destruct Hp as [Hp|Hp]); subst;
  try tauto; try (destruct Hp; congruence); intuition congruence.
Qed.

(** The Remix complete route, which computes the status with
    [validateCheckoutStatus]: complete succeeds, assigning the order id and
    status [completed], exactly when the computed status is
    [ready_for_complete].  Otherwise it fails, assigns no order id and leaves
    the row unchanged; its messages name exactly the missing required fields
    by path ($.buyer.email, $.shipping_address, $.payment_method), and there
    is at least one such message unless the session is already completed. *)
Lemma remix_complete_reports_missing_fields (o : string) (s : session) :
  (computed_status s = ReadyForComplete ->
   remix_complete o (Some s) =
     (Some (with_fields s Completed (line_items s) (buyer_info s)
              (shipping_address s) (payment_method s) (Some o)),
      CompletedOk o)) /\
  (computed_status s <> ReadyForComplete ->
   remix_complete o (Some s) = (Some s, NotReady (snd (validateCheckoutStatus s))) /\
   (forall p, In p (map path (snd (validateCheckoutStatus s))) <->
      (p = "$.buyer.email" /\ has_buyer_email (buyer_info s) = false) \/
      (p = "$.shipping_address" /\ truthy (shipping_address s) = false) \/
      (p = "$.payment_method" /\ truthy (payment_method s) = false)) /\
   (status_of s <> Completed -> snd (validateCheckoutStatus s) <> [])).
Proof.
  unfold computed_status, remix_complete.
  split.
  - destruct (validateCheckoutStatus s) as [st msgs]. simpl. intros ->.
    reflexivity.
  - intros Hn. split; [|split].
    + destruct (validateCheckoutStatus s) as [st msgs]. simpl in *.
      destruct st; simpl; congruence.
    + apply in_missing_paths.
    + intros Hc Hnil. apply Hn.
      unfold validateCheckoutStatus in *. simpl in *.
      replace (status_eqb (status_of s) Completed) with false
        by (destruct (status_of s); simpl; congruence).
      rewrite Hnil. reflexivity.
Qed.

(** C6 (code_bug).  The Express complete route (ucp.js 323-354) answers
    every session whose stored status is not [ready_for_complete] with the
    generic 400 [{error: 'Not ready'}]: no message, no path naming the
    missing field, no order id, the row unchanged.  For a session lacking
    only its shipping address, the Remix complete route answers with one
    message whose path is [$.shipping_address], as the claim asks. *)
Theorem express_complete_generic_not_ready :
  express_complete "order_1" (Some s_missing_shipping) =
    (Some s_missing_shipping, NotReadyGeneric) /\
  order_id s_missing_shipping = None /\
  computed_status s_missing_shipping = Incomplete /\
  remix_complete "order_1" (Some s_missing_shipping) =
    (Some s_missing_shipping, NotReady (snd (validateCheckoutStatus s_missing_shipping))) /\
  map path (snd (validateCheckoutStatus s_missing_shipping)) = ["$.shipping_address"] /\
  (forall o s, status_of s <> ReadyForComplete ->
     express_complete o (Some s) = (Some s, NotReadyGeneric)) /\
  (forall o, express_complete o None = (None, NotReadyGeneric)).
Proof.
  split; [reflexivity|]. split; [reflexivity|]. split; [reflexivity|].
  split; [reflexivity|]. split; [reflexivity|]. split.
  - intros o s H. unfold express_complete.
    destruct (status_of s); [reflexivity| |reflexivity]. contradiction.
  - intros o. reflexivity.
Qed.

(** The three optional fields of a session, of a PUT body and of a
    validated Remix update. *)
Inductive fld := FBuyer | FShipping | FPayment.

Definition get (f : fld) (s : session) : option jval :=
  match f with
  | FBuyer => buyer_info s
  | FShipping => shipping_address s
  | FPayment => payment_method s
  end.

Definition eb_get (f : fld) (b : express_body) : option jval :=
  match f with
  | FBuyer => eb_buyer_info b
  | FShipping => eb_shipping_address b
  | FPayment => eb_payment_method b
  end.

Definition u_get (f : fld) (u : update_req) : option jval :=
  match f with
  | FBuyer => u_buyer_info u
  | FShipping => u_shipping_address u
  | FPayment => u_payment_method u
  end.

Lemma apply_if_truthy_cases v old :
  (populated old = true -> populated (apply_if_truthy v old) = true) /\
  (apply_if_truthy v old = old \/
   (apply_if_truthy v old = v /\ populated v = true)).
Proof.
  split; [apply apply_if_truthy_populated|].
  unfold apply_if_truthy. destruct (truthy v) eqn:E; [|left; reflexivity].
  right. auto using truthy_populated.
Qed.

Lemma express_update_field f s b s' r :
  express_update (Some s) b = (Some s', r) ->
  get f s' = apply_if_truthy (eb_get f b) (get f s).
Proof.
  unfold express_update. intros H. injection H as <- _.
  destruct f; reflexivity.
Qed.

Lemma remix_update_field f u s s' r :
  remix_update (Some u) (Some s) = (Some s', r) ->
  get f s' = apply_if_truthy (u_get f u) (get f s).
Proof.
  unfold remix_update.
  destruct (validateCheckoutStatus _) as [st msgs].
  destruct (status_eqb _ _); intros H; injection H as <- _;
  destruct f; reflexivity.
Qed.

Lemma express_run_populated f s bs :
  populated (get f s) = true -> populated (get f (express_run s bs)) = true.
Proof.
  revert s. induction bs as [|b bs IH]; intros s Hs; cbn [express_run]; [exact Hs|].
  destruct (express_update (Some s) b) as [[s'|] r] eqn:E; cbn [fst]; [|exact Hs].
  apply IH. rewrite (express_update_field f s b s' r E).
  apply apply_if_truthy_populated. exact Hs.
Qed.

Lemma remix_run_populated f s us :
  populated (get f s) = true -> populated (get f (remix_run s us)) = true.
Proof.
  revert s. induction us as [|[u|] us IH]; intros s Hs; cbn [remix_run]; [exact Hs| |].
  - destruct (remix_update (Some u) (Some s)) as [[s'|] r] eqn:E; cbn [fst];
      [|exact Hs].
    apply IH. rewrite (remix_update_field f u s s' r E).
    apply apply_if_truthy_populated. exact Hs.
  - apply IH. exact Hs.
Qed.

(** C10 (confirmed).  An update never clears buyer_info, shipping_address or
    payment_method: both the Express and the Remix PUT route either keep a
    field or overwrite it with the value of the request, and only when that
    value is present and truthy (so non-null); hence a populated field stays
    populated, and the set of populated fields only grows along any sequence
    of updates. *)
Theorem updates_never_clear_fields :
  (forall f s b s' r, express_update (Some s) b = (Some s', r) ->
     (populated (get f s) = true -> populated (get f s') = true) /\
     (get f s' = get f s \/
      (get f s' = eb_get f b /\ populated (eb_get f b) = true))) /\
  (forall f u s s' r, remix_update (Some u) (Some s) = (Some s', r) ->
     (populated (get f s) = true -> populated (get f s') = true) /\
     (get f s' = get f s \/
      (get f s' = u_get f u /\ populated (u_get f u) = true))) /\
  (forall f s bs, populated (get f s) = true ->
     populated (get f (express_run s bs)) = true) /\
  (forall f s us, populated (get f s) = true ->
     populated (get f (remix_run s us)) = true).
Proof.
  split; [|split; [|split]].
  - intros f s b s' r E. rewrite (express_update_field f s b s' r E).
    apply apply_if_truthy_cases.
  - intros f u s s' r E. rewrite (remix_update_field f u s s' r E).
    apply apply_if_truthy_cases.
  - exact express_run_populated.
  - exact remix_run_populated.
Qed.

End CheckoutFacts.

(* ------------------------------------------------------------------------- *)
(** * Ingestion: properties *)

Module IngestFacts.
Import JS Catalog Ingest.
Local Open Scope string_scope.
Local Open Scope list_scope.

(** The [j]-th slice [products.slice(batchSize * j, batchSize * (j + 1))]. *)
Definition batch (P : list product) (j : nat) : list product :=
  firstn batchSize (skipn (batchSize * j) P).

Lemma firstn_add_split {A} (a b : nat) (l : list A) :
  firstn (a + b) l = firstn a l ++ firstn b (skipn a l).
Proof.
  revert l. induction a as [|a IH]; intros l; [reflexivity|].
  destruct l as [|x l]; simpl.
  - rewrite firstn_nil. reflexivity.
  - f_equal. apply IH.
Qed.

Section Loop.
Variable fails : nat -> bool.
Variable P : list product.

Lemma insert_loop_fail fuel : forall k st j0,
  k <= j0 -> batchSize * j0 < length P ->
  length P <= batchSize * (k + fuel) ->
  fails j0 = true -> (forall j, k <= j -> j < j0 -> fails j = false) ->
  insert_loop fails P fuel (batchSize * k) (batchSize * k) k st =
    ({| products_tbl := products_tbl st ++
                        firstn (batchSize * (j0 - k)) (skipn (batchSize * k) P);
        merchants_tbl := merchants_tbl st;
        oplog := oplog st ++ map (fun j => OpInsert (batch P j) true)
                                  (seq k (j0 - k))
                          ++ [OpInsert (batch P j0) false] |},
     InsertFailedAt (batchSize * j0)).
Proof.
  unfold batch, batchSize.
  induction fuel as [|f IH]; intros k st j0 Hk Hj Hf Hfail Hok; [lia|].
  cbn [insert_loop]; unfold batchSize.
  replace (Nat.ltb (100 * k) (length P)) with true
    by (symmetry; apply Nat.ltb_lt; lia).
  destruct (Nat.eq_dec k j0) as [<-|Hne].
  - rewrite Hfail, Nat.sub_diag, Nat.mul_0_r. cbn [firstn seq map app].
    unfold log. rewrite !app_nil_r. reflexivity.
  - rewrite (Hok k) by lia.
    assert (Hlen : length (firstn 100 (skipn (100 * k) P)) = 100)
      by (rewrite length_firstn, length_skipn; lia).
    rewrite Hlen. replace (100 * k + 100) with (100 * S k) by lia.
    rewrite (IH (S k) _ j0) by (first [exact Hfail | lia | intros; apply Hok; lia]).
    unfold insert_rows. cbn [products_tbl merchants_tbl oplog]. f_equal. f_equal.
    + rewrite <- app_assoc. f_equal.
      replace (100 * (j0 - k)) with (100 + 100 * (j0 - S k)) by lia.
      rewrite firstn_add_split, skipn_skipn.
      replace (100 * S k) with (100 + 100 * k) by lia. reflexivity.
    + replace (j0 - k) with (S (j0 - S k)) by lia. cbn [seq map].
      rewrite <- !app_assoc. reflexivity.
Qed.

Lemma insert_loop_ok fuel : forall k st,
  batchSize * k <= length P -> length P <= batchSize * (k + fuel) ->
  (forall j, k <= j -> batchSize * j < length P -> fails j = false) ->
  exists st',
    insert_loop fails P fuel (batchSize * k) (batchSize * k) k st =
      (st', AllInserted (length P)) /\
    products_tbl st' = products_tbl st ++ skipn (batchSize * k) P /\
    merchants_tbl st' = merchants_tbl st.
Proof.
  unfold batchSize.
  induction fuel as [|f IH]; intros k st Hk Hf Hok.
  - exists st. cbn [insert_loop]; unfold batchSize. rewrite skipn_all2 by lia.
    rewrite app_nil_r. split; [f_equal; f_equal; lia | auto].
  - cbn [insert_loop]; unfold batchSize. destruct (Nat.ltb (100 * k) (length P)) eqn:Hlt.
    + apply Nat.ltb_lt in Hlt. rewrite (Hok k) by lia.
      replace (100 * k + 100) with (100 * S k) by lia.
      destruct (Nat.le_gt_cases (length P) (100 * S k)) as [Hle|Hgt].
      * (* the last, possibly partial, batch *)
        assert (Hlen : length (firstn 100 (skipn (100 * k) P)) = length P - 100 * k)
          by (rewrite length_firstn, length_skipn; lia).
        rewrite Hlen.
        replace (100 * k + (length P - 100 * k)) with (length P) by lia.
        exists (insert_rows (firstn 100 (skipn (100 * k) P)) st).
        destruct f as [|f']; cbn [insert_loop]; unfold batchSize;
          [|replace (Nat.ltb (100 * S k) (length P)) with false
              by (symmetry; apply Nat.ltb_ge; lia)];
          (split; [reflexivity|]);
          unfold insert_rows; cbn [products_tbl merchants_tbl];
          (split; [|reflexivity]);
          rewrite firstn_all2 by (rewrite length_skipn; lia); reflexivity.
      * assert (Hlen : length (firstn 100 (skipn (100 * k) P)) = 100)
          by (rewrite length_firstn, length_skipn; lia).
        rewrite Hlen. replace (100 * k + 100) with (100 * S k) by lia.
        destruct (IH (S k) (insert_rows (firstn 100 (skipn (100 * k) P)) st))
          as [st' [Hrun [Hp Hm]]]; [lia | lia | intros; apply Hok; lia |].
        exists st'. split; [exact Hrun|].
        split; [|exact Hm].
        rewrite Hp. unfold insert_rows. cbn [products_tbl].
        rewrite <- app_assoc. f_equal.
        rewrite <- (firstn_skipn 100 (skipn (100 * k) P)) at 2.
        f_equal. rewrite skipn_skipn. f_equal. lia.
    + apply Nat.ltb_ge in Hlt. exists st.
      rewrite skipn_all2 by lia. rewrite app_nil_r.
      split; [f_equal; f_equal; lia | auto].
Qed.

End Loop.

Lemma first_failure (fails : nat -> bool) (N : nat) :
  (forall j, j < N -> fails j = false) \/
  exists j0, j0 < N /\ fails j0 = true /\ (forall j, j < j0 -> fails j = false).
Proof.
  induction N as [|N IH]; [left; lia|].
  destruct IH as [Hall|[j0 [Hj0 [Hf Hb]]]].
  - destruct (fails N) eqn:E.
    + right. exists N. repeat split; auto.
    + left. intros j Hj. destruct (Nat.eq_dec j N) as [->|]; auto.
      apply Hall. lia.
  - right. exists j0. split; [lia|auto].
Qed.

(** Whether a handler response is one after which the store was written. *)
Definition writes (r : response) : bool :=
  match r with R201_Uploaded _ _ _ | R500_InsertFailed _ => true | _ => false end.

(** The table and merchants seen by the insert loop. *)
Definition after_replace (del_fails : bool) (m : merchant_ctx) (rep : bool) (st : db) : db :=
  if rep then
    (if del_fails then delete_failed (m_id m) st else delete_products (m_id m) st)
  else st.

(** The two ways [commit] can end, with the oracle condition of each. *)
Lemma commit_cases del_fails fails m rep P st :
  (exists st2,
     (forall j, batchSize * j < length P -> fails j = false) /\
     products_tbl st2 = products_tbl (after_replace del_fails m rep st) ++ P /\
     merchants_tbl st2 = merchants_tbl (after_replace del_fails m rep st) /\
     commit del_fails fails m rep P st =
       (set_product_count (m_id m) (count_active (m_id m) (products_tbl st2))
          (log (OpCountActive (m_id m) (count_active (m_id m) (products_tbl st2))) st2),
        R201_Uploaded (length P) (count_active (m_id m) (products_tbl st2)) rep))
  \/
  (exists j0,
     batchSize * j0 < length P /\ fails j0 = true /\
     (forall j, j < j0 -> fails j = false) /\
     commit del_fails fails m rep P st =
       ({| products_tbl := products_tbl (after_replace del_fails m rep st) ++
                           firstn (batchSize * j0) P;
           merchants_tbl := merchants_tbl (after_replace del_fails m rep st);
           oplog := oplog (after_replace del_fails m rep st) ++
                    map (fun j => OpInsert (batch P j) true) (seq 0 j0) ++
                    [OpInsert (batch P j0) false] |},
        R500_InsertFailed (batchSize * j0))).
Proof.
  unfold commit. fold (after_replace del_fails m rep st).
  set (st1 := after_replace del_fails m rep st).
  destruct (first_failure fails (length P)) as [Hall|[j0 [Hj0 [Hf Hb]]]].
  - left.
    assert (Hok : forall j, 0 <= j -> batchSize * j < length P -> fails j = false)
      by (intros j _ Hj; apply Hall; unfold batchSize in Hj; lia).
    destruct (insert_loop_ok fails P (length P) 0 st1) as [st2 [Hrun [Hp Hm]]];
      [unfold batchSize; lia | unfold batchSize; lia | exact Hok |].
    change (batchSize * 0) with 0 in Hrun. rewrite Hrun.
    exists st2. split; [|split; [exact Hp|split; [exact Hm|reflexivity]]].
    intros j Hj. apply Hall. unfold batchSize in Hj. lia.
  - destruct (Nat.lt_ge_cases (batchSize * j0) (length P)) as [Hlt|Hge].
    + right. exists j0. split; [exact Hlt|split; [exact Hf|split; [exact Hb|]]].
      pose proof (insert_loop_fail fails P (length P) 0 st1 j0) as H.
      change (batchSize * 0) with 0 in H.
      rewrite H by (first [exact Hf | unfold batchSize in *; lia | intros; apply Hb; lia]).
      rewrite Nat.sub_0_r. reflexivity.
    + left.
      assert (Hok : forall j, 0 <= j -> batchSize * j < length P -> fails j = false)
        by (intros j _ Hj; apply Hb; unfold batchSize in *; lia).
      destruct (insert_loop_ok fails P (length P) 0 st1) as [st2 [Hrun [Hp Hm]]];
        [unfold batchSize; lia | unfold batchSize; lia | exact Hok |].
      change (batchSize * 0) with 0 in Hrun. rewrite Hrun.
      exists st2. split; [|split; [exact Hp|split; [exact Hm|reflexivity]]].
      intros j Hj. apply Hb. unfold batchSize in *. lia.
Qed.

(** C8: for a batch [P] that passed validation, [commit] inserts
    [P.slice(100 j, 100 (j+1))] for [j = 0, 1, ...] one statement after the
    other.  If no statement fails, all [length P] rows are stored and the
    reported count is [length P].  If statement [j0] (0-based, so batch
    [k = j0 + 1]) is the first to fail, the statements [0 .. j0 - 1] were
    issued and kept (no rollback), none is issued after [j0], and the 500
    reply reports [100 * j0] inserted rows. *)
Theorem commit_sequential_batches del_fails fails m rep P st :
  ((forall j, batchSize * j < length P -> fails j = false) ->
     exists st' c, commit del_fails fails m rep P st = (st', R201_Uploaded (length P) c rep) /\
       products_tbl st' = products_tbl (after_replace del_fails m rep st) ++ P) /\
  (forall j0, batchSize * j0 < length P -> fails j0 = true ->
     (forall j, j < j0 -> fails j = false) ->
     commit del_fails fails m rep P st =
       ({| products_tbl := products_tbl (after_replace del_fails m rep st) ++
                           firstn (batchSize * j0) P;
           merchants_tbl := merchants_tbl (after_replace del_fails m rep st);
           oplog := oplog (after_replace del_fails m rep st) ++
                    map (fun j => OpInsert (batch P j) true) (seq 0 j0) ++
                    [OpInsert (batch P j0) false] |},
        R500_InsertFailed (batchSize * j0))).
Proof.
  split.
  - intros Hok.
    destruct (commit_cases del_fails fails m rep P st)
      as [[st2 [_ [Hp [_ Hc]]]]|[j0 [Hj0 [Hf _]]]].
    + rewrite Hc. do 2 eexists. split; [reflexivity|]. exact Hp.
    + rewrite Hok in Hf by exact Hj0. discriminate.
  - intros j0 Hj0 Hf Hb.
    destruct (commit_cases del_fails fails m rep P st)
      as [[st2 [Hok _]]|[j1 [Hj1 [Hf1 [Hb1 Hc]]]]].
    + rewrite Hok in Hf by exact Hj0. discriminate.
    + assert (j1 = j0) as ->.
      { destruct (Nat.lt_total j1 j0) as [Hlt|[Heq|Hgt]]; auto.
        - rewrite Hb in Hf1 by exact Hlt. discriminate.
        - rewrite Hb1 in Hf by exact Hgt. discriminate. }
      exact Hc.
Qed.

(** ** The two upload handlers reduce to [commit] or leave the store alone *)

(** The normalised rows a CSV upload would commit. *)
Definition csv_batch (m : merchant_ctx) (file : csv_file) : list product :=
  match file with Records rs => snd (csv_validate (m_id m) 0 rs) | _ => [] end.

(** The normalised rows a JSON upload would commit. *)
Definition json_batch (m : merchant_ctx) (body : jval) : list product :=
  match jget body "products" with
  | Ret (Some (JArr items)) =>
      match json_validate (m_id m) 0 items with
      | Ret (_, P) => P
      | TypeError => []
      end
  | _ => []
  end.

Lemma upload_csv_cases del_fails fails m q file st :
  (exists r, upload_csv del_fails fails m q file st = (st, r) /\ writes r = false) \/
  (exists r0 rest, file = Records (r0 :: rest) /\
     missing_columns (keys r0) = [] /\
     fst (csv_validate (m_id m) 0 (r0 :: rest)) = [] /\
     upload_csv del_fails fails m q file st =
       commit del_fails fails m (replace_flag q) (csv_batch m file) st).
Proof.
  destruct file as [| |[|r0 rest]]; try (left; eexists; split; reflexivity).
  unfold upload_csv, csv_batch; cbv beta iota zeta.
  destruct (missing_columns (keys r0)) as [|c cs] eqn:Hmc;
    [|left; eexists; split; reflexivity].
  destruct (csv_validate (m_id m) 0 (r0 :: rest)) as [errs P] eqn:Hv.
  destruct errs as [|e es]; [|left; eexists; split; reflexivity].
  right. exists r0, rest. rewrite Hmc, Hv. repeat split.
Qed.

Lemma upload_json_cases del_fails fails m q body st :
  (exists r, upload_json del_fails fails m q body st = (st, r) /\ writes r = false) \/
  (exists items, jget body "products" = Ret (Some (JArr items)) /\
     items <> [] /\
     json_validate (m_id m) 0 items = Ret ([], json_batch m body) /\
     upload_json del_fails fails m q body st =
       commit del_fails fails m (replace_flag q) (json_batch m body) st).
Proof.
  unfold upload_json, json_batch.
  destruct (jget body "products") as [[v|]|] eqn:Hb;
    try (left; eexists; split; reflexivity).
  destruct v as [| | | |[|i0 rest]|]; try (left; eexists; split; reflexivity).
  destruct (json_validate (m_id m) 0 (i0 :: rest)) as [[errs P]|] eqn:Hv;
    [|left; eexists; split; reflexivity].
  destruct errs as [|e es]; [|left; eexists; split; reflexivity].
  right. exists (i0 :: rest). rewrite Hv.
  split; [reflexivity|split; [discriminate|split; reflexivity]].
Qed.

(** Every normalised row carries the authenticated merchant's id. *)
Lemma csv_validate_merchant mid k rs p :
  In p (snd (csv_validate mid k rs)) -> merchant_id p = mid.
Proof.
  revert k. induction rs as [|r rs IH]; intros k H; [destruct H|].
  cbn [csv_validate] in H.
  destruct (csv_validate mid (S k) rs) as [e P] eqn:E.
  cbn [snd] in H. destruct H as [<-|H]; [reflexivity|].
  apply (IH (S k)). rewrite E. exact H.
Qed.

Ltac run_res H :=
  repeat match type of H with
         | bind ?m _ = _ => destruct m eqn:?; cbn [bind] in H; [|discriminate H]
         end.

Lemma json_item_merchant mid n item e p :
  json_item mid n item = Ret (e, p) -> merchant_id p = mid.
Proof.
  unfold json_item. intros H. run_res H.
  injection H as _ <-. reflexivity.
Qed.

Lemma json_validate_merchant mid : forall items k E P,
  json_validate mid k items = Ret (E, P) -> forall p, In p P -> merchant_id p = mid.
Proof.
  induction items as [|it items IH]; intros k E P H p Hp.
  - injection H as _ <-. destruct Hp.
  - cbn [json_validate] in H. run_res H.
    destruct a as [e1 p1], a0 as [e2 P2].
    cbn [fst snd] in H. injection H as _ <-.
    destruct Hp as [<-|Hp].
    + eapply json_item_merchant; eassumption.
    + eapply IH; eassumption.
Qed.

(** The merchant's rows and everybody else's. *)
Definition mine (mid : string) (tbl : list product) : list product :=
  filter (of_merchant mid) tbl.

Definition others (mid : string) (tbl : list product) : list product :=
  filter (fun p => negb (of_merchant mid p)) tbl.

Lemma others_app mid l1 l2 : others mid (l1 ++ l2) = others mid l1 ++ others mid l2.
Proof. apply filter_app. Qed.

Lemma mine_app mid l1 l2 : mine mid (l1 ++ l2) = mine mid l1 ++ mine mid l2.
Proof. apply filter_app. Qed.

Lemma others_others mid l : others mid (others mid l) = others mid l.
Proof.
  induction l as [|p l IH]; [reflexivity|].
  unfold others in *; cbn [filter].
  destruct (of_merchant mid p) eqn:E; cbn [negb filter]; [exact IH|].
  rewrite E. cbn [negb]. f_equal. exact IH.
Qed.

Lemma mine_others mid l : mine mid (others mid l) = [].
Proof.
  induction l as [|p l IH]; [reflexivity|].
  unfold mine, others in *; cbn [filter].
  destruct (of_merchant mid p) eqn:E; cbn [negb filter]; [exact IH|].
  rewrite E. exact IH.
Qed.

Lemma owned_of_merchant mid p : merchant_id p = mid -> of_merchant mid p = true.
Proof. intros H. unfold of_merchant. rewrite H. apply String.eqb_refl. Qed.

Lemma mine_owned mid l : (forall p, In p l -> merchant_id p = mid) -> mine mid l = l.
Proof.
  induction l as [|p l IH]; intros H; [reflexivity|].
  unfold mine in *; cbn [filter].
  rewrite owned_of_merchant by (apply H; left; reflexivity).
  f_equal. apply IH. intros q Hq. apply H. right. exact Hq.
Qed.

Lemma others_owned mid l : (forall p, In p l -> merchant_id p = mid) -> others mid l = [].
Proof.
  induction l as [|p l IH]; intros H; [reflexivity|].
  unfold others in *; cbn [filter].
  rewrite owned_of_merchant by (apply H; left; reflexivity).
  cbn [negb]. apply IH. intros q Hq. apply H. right. exact Hq.
Qed.

Lemma in_firstn_in {A} n (l : list A) x : In x (firstn n l) -> In x l.
Proof. intros H. rewrite <- (firstn_skipn n l). apply in_or_app. left. exact H. Qed.

(** ** Replace mode *)

(** A commit in replace mode whose delete succeeds keeps every other
    merchant's rows and leaves the merchant with the rows inserted by this
    request only. *)
Lemma commit_replace fails m P st st' r :
  (forall p, In p P -> merchant_id p = m_id m) ->
  commit false fails m true P st = (st', r) ->
  others (m_id m) (products_tbl st') = others (m_id m) (products_tbl st) /\
  match r with
  | R201_Uploaded _ _ _ => mine (m_id m) (products_tbl st') = P
  | R500_InsertFailed n => mine (m_id m) (products_tbl st') = firstn n P
  | _ => False
  end.
Proof.
  intros Hown Hc.
  destruct (commit_cases false fails m true P st)
    as [[st2 [_ [Hp [_ E]]]]|[j0 [_ [_ [_ E]]]]];
    rewrite E in Hc; apply pair_equal_spec in Hc; destruct Hc as [<- <-].
  - unfold set_product_count, log; cbn [products_tbl]. rewrite Hp.
    unfold after_replace, delete_products; cbn [products_tbl].
    fold (others (m_id m) (products_tbl st)).
    rewrite others_app, others_others, (others_owned _ P Hown), app_nil_r.
    rewrite mine_app, mine_others, (mine_owned _ P Hown). split; reflexivity.
  - set (n0 := batchSize * j0). cbn [products_tbl].
    unfold after_replace, delete_products; cbn [products_tbl].
    fold (others (m_id m) (products_tbl st)).
    assert (Hf : forall p, In p (firstn n0 P) -> merchant_id p = m_id m)
      by (intros p Hin; apply Hown; eapply in_firstn_in; exact Hin).
    rewrite others_app, others_others, (others_owned _ _ Hf), app_nil_r.
    rewrite mine_app, mine_others, (mine_owned _ _ Hf). split; reflexivity.
Qed.

(** What a replace-mode upload leaves behind, given the normalised batch [B]
    of the request. *)
Definition replace_outcome (m : merchant_ctx) (B : list product)
    (st st' : db) (r : response) : Prop :=
  others (m_id m) (products_tbl st') = others (m_id m) (products_tbl st) /\
  match r with
  | R201_Uploaded _ _ _ => mine (m_id m) (products_tbl st') = B
  | R500_InsertFailed n => mine (m_id m) (products_tbl st') = firstn n B
  | _ => st' = st
  end.

Lemma replace_outcome_of_commit fails m B st st' r :
  (forall p, In p B -> merchant_id p = m_id m) ->
  commit false fails m true B st = (st', r) -> replace_outcome m B st st' r.
Proof.
  intros Hown H. destruct (commit_replace fails m B st st' r Hown H) as [Ho Hm].
  split; [exact Ho|]. destruct r; solve [exact Hm | destruct Hm].
Qed.

Lemma replace_outcome_no_write m B st r :
  writes r = false -> replace_outcome m B st st r.
Proof.
  intros Hw. split; [reflexivity|].
  destruct r; cbn [writes] in Hw; solve [discriminate Hw | reflexivity].
Qed.

(** A replace-mode commit whose delete fails: the error is not read, so a
    201 leaves the merchant its prior rows followed by the new batch. *)
Lemma commit_delete_failed fails m P st st' n c b :
  (forall p, In p P -> merchant_id p = m_id m) ->
  commit true fails m true P st = (st', R201_Uploaded n c b) ->
  others (m_id m) (products_tbl st') = others (m_id m) (products_tbl st) /\
  mine (m_id m) (products_tbl st') = mine (m_id m) (products_tbl st) ++ P.
Proof.
  intros Hown H.
  destruct (commit_cases true fails m true P st)
    as [[st2 [_ [Hp [_ E]]]]|[j0 [_ [_ [_ E]]]]]; rewrite E in H.
  - injection H as <- _ _ _. unfold set_product_count, log; cbn [products_tbl].
    rewrite Hp. cbn [after_replace delete_failed log products_tbl].
    rewrite others_app, (others_owned _ P Hown), app_nil_r.
    rewrite mine_app, (mine_owned _ P Hown). split; reflexivity.
  - injection H as _ Hr. discriminate Hr.
Qed.

(** ** product_count *)

(** [c] was read by a count of the merchant's active rows, is that count
    on the final table, and is the merchant's stored [product_count]. *)
Definition count_consistent (m : merchant_ctx) (st : db) (c : nat) : Prop :=
  c = count_active (m_id m) (products_tbl st) /\
  (forall m', In m' (merchants_tbl st) -> m_id m' = m_id m -> product_count m' = c) /\
  In (OpCountActive (m_id m) c) (oplog st).

Lemma set_product_count_spec mid v st m' :
  In m' (merchants_tbl (set_product_count mid v st)) -> m_id m' = mid ->
  product_count m' = v.
Proof.
  unfold set_product_count; cbn [merchants_tbl]. intros Hin Hid.
  apply in_map_iff in Hin. destruct Hin as [x [Hx _]].
  destruct (String.eqb (m_id x) mid) eqn:E.
  - subst m'. reflexivity.
  - subst m'. rewrite Hid, String.eqb_refl in E. discriminate.
Qed.

Lemma commit_recounts del_fails fails m rep P st st' n c b :
  commit del_fails fails m rep P st = (st', R201_Uploaded n c b) -> count_consistent m st' c.
Proof.
  intros H.
  destruct (commit_cases del_fails fails m rep P st)
    as [[st2 [_ [_ [_ E]]]]|[j0 [_ [_ [_ E]]]]]; rewrite E in H.
  - injection H as <- _ <- _. split; [|split].
    + reflexivity.
    + intros m'. apply set_product_count_spec.
    + unfold set_product_count, log; cbn [oplog].
      apply in_or_app. left. apply in_or_app. right. left. reflexivity.
  - injection H as _ Hr. discriminate Hr.
Qed.

Lemma count_active_others mid l : count_active mid (others mid l) = 0.
Proof.
  induction l as [|p l IH]; [reflexivity|].
  unfold count_active, others in *; cbn [filter].
  destruct (of_merchant mid p) eqn:E; cbn [negb filter]; [exact IH|].
  rewrite E. exact IH.
Qed.

(** ** Sample store and requests *)

Definition acme : merchant :=
  {| m_id := "m1"; slug := "acme"; product_count := 1; is_active := true |}.
Definition globex : merchant :=
  {| m_id := "m2"; slug := "globex"; product_count := 1; is_active := true |}.

Definition old_row (mid : string) : product :=
  {| merchant_id := mid; name := "Old lamp"; description := None;
     price := Fin (Dec 10 0); currency := "EUR"; url := "https://shop.example/old";
     image_url := None; sku := None; category := None; brand := None;
     active := true |}.

(** Batch A of each merchant is stored. *)
Definition st_prior : db :=
  {| products_tbl := [old_row "m1"; old_row "m2"];
     merchants_tbl := [acme; globex]; oplog := [] |}.

Definition json_lamp : jval :=
  JObj [("name", JStr "Lamp"); ("price", JNum (Dec 5 0));
        ("url", JStr "https://shop.example/lamp")].

(** Batch B: 101 valid products, i.e. two insert statements. *)
Definition body_101 : jval := JObj [("products", JArr (repeat json_lamp 101))].

(** The second insert statement of the request fails. *)
Definition second_insert_fails (j : nat) : bool := Nat.eqb j 1.

Definition no_failure (j : nat) : bool := false.

(** A replace upload that stops at its second batch: the merchant's prior
    row is gone, but only 100 of the 101 rows of batch B are stored (the
    loop has no rollback). *)
Lemma replace_upload_partial_batch :
  snd (upload_json false second_insert_fails acme (Some "true") body_101 st_prior)
    = R500_InsertFailed 100 /\
  length (json_batch acme body_101) = 101 /\
  length (mine "m1" (products_tbl
    (fst (upload_json false second_insert_fails acme (Some "true") body_101 st_prior))))
    = 100 /\
  mine "m1" (products_tbl
    (fst (upload_json false second_insert_fails acme (Some "true") body_101 st_prior)))
    <> json_batch acme body_101.
Proof.
  split; [vm_compute; reflexivity|].
  split; [vm_compute; reflexivity|].
  split; [vm_compute; reflexivity|].
  intros H. apply (f_equal (@length product)) in H. vm_compute in H.
  discriminate H.
Qed.

(** With [replace=true] and a delete that succeeds, every other merchant's
    rows are unchanged whatever happens.  An upload rejected before the
    commit changes nothing.  A 201 leaves the merchant exactly the new
    batch's rows, none of the prior ones; a 500 after a failed insert leaves
    it only the first [inserted_so_far] rows of the new batch, and none of
    the prior ones. *)
Lemma replace_upload_when_delete_succeeds :
  (forall fails m file st st' r,
     upload_csv false fails m (Some "true") file st = (st', r) ->
     replace_outcome m (csv_batch m file) st st' r) /\
  (forall fails m body st st' r,
     upload_json false fails m (Some "true") body st = (st', r) ->
     replace_outcome m (json_batch m body) st st' r).
Proof.
  split.
  - intros fails m file st st' r H.
    destruct (upload_csv_cases false fails m (Some "true") file st)
      as [[r' [E Hw]]|[r0 [rest [Hf [_ [_ E]]]]]]; rewrite E in H.
    + injection H as <- <-. apply replace_outcome_no_write. exact Hw.
    + apply (replace_outcome_of_commit fails); [|exact H].
      intros p Hp. subst file. eapply csv_validate_merchant. exact Hp.
  - intros fails m body st st' r H.
    destruct (upload_json_cases false fails m (Some "true") body st)
      as [[r' [E Hw]]|[items [_ [_ [Hv E]]]]]; rewrite E in H.
    + injection H as <- <-. apply replace_outcome_no_write. exact Hw.
    + apply (replace_outcome_of_commit fails); [|exact H].
      eapply json_validate_merchant. exact Hv.
Qed.

(** C5, the purge: [DELETE /api/products/mine] issues the delete and then
    writes the constant 0; no count of the products table is taken. *)
Lemma purge_writes_constant_zero :
  oplog (purge_mine acme st_prior) =
    [OpDeleteProducts "m1"; OpSetProductCount "m1" 0] /\
  forall c, ~ In (OpCountActive "m1" c) (oplog (purge_mine acme st_prior)).
Proof.
  split; [reflexivity|].
  intros c H. cbn in H.
  destruct H as [H|[H|H]]; [discriminate H|discriminate H|exact H].
Qed.

(** C5 (amended): after a successful upload (CSV or JSON, append or
    replace), the merchant's [product_count] is the number [c] reported,
    which was read by a count query over the products table after the
    inserts and equals the count of the merchant's active rows.  After a
    purge, [product_count] is 0, which equals the count of active rows, but
    it is written as a constant, not recounted. *)
Theorem product_count_after_ingest_and_purge :
  (forall del_fails fails m q file st st' n c b,
     upload_csv del_fails fails m q file st = (st', R201_Uploaded n c b) ->
     count_consistent m st' c) /\
  (forall del_fails fails m q body st st' n c b,
     upload_json del_fails fails m q body st = (st', R201_Uploaded n c b) ->
     count_consistent m st' c) /\
  (forall m st,
     count_active (m_id m) (products_tbl (purge_mine m st)) = 0 /\
     (forall m', In m' (merchants_tbl (purge_mine m st)) -> m_id m' = m_id m ->
                 product_count m' = 0) /\
     oplog (purge_mine m st) =
       oplog st ++ [OpDeleteProducts (m_id m); OpSetProductCount (m_id m) 0]).
Proof.
  split; [|split].
  - intros del_fails fails m q file st st' n c b H.
    destruct (upload_csv_cases del_fails fails m q file st)
      as [[r' [E Hw]]|[r0 [rest [_ [_ [_ E]]]]]]; rewrite E in H.
    + injection H as _ Hr. rewrite Hr in Hw. discriminate Hw.
    + eapply commit_recounts. exact H.
  - intros del_fails fails m q body st st' n c b H.
    destruct (upload_json_cases del_fails fails m q body st)
      as [[r' [E Hw]]|[items [_ [_ [_ E]]]]]; rewrite E in H.
    + injection H as _ Hr. rewrite Hr in Hw. discriminate Hw.
    + eapply commit_recounts. exact H.
  - intros m st. split; [|split].
    + apply count_active_others.
    + intros m'. apply set_product_count_spec.
    + unfold purge_mine, set_product_count, delete_products; cbn [oplog].
      rewrite <- app_assoc. reflexivity.
Qed.

(** ** Row-level validation *)















(** ** Sample uploads for the price and error-collection checks *)

Definition csv_line (nm pr : string) : csv_record :=
  [("name", nm); ("price", pr); ("url", "https://shop.example/item")].



Definition widget_sku : jval :=
  JObj [("name", JStr "Widget"); ("price", JNum (Dec 1 0));
        ("url", JStr "https://shop.example/widget"); ("sku", JNum (Dec 123 0))].

Definition gadget : jval :=
  JObj [("name", JStr "Gadget"); ("price", JStr "abc");
        ("url", JStr "https://shop.example/gadget")].

(** Item 1 passes the three checks but has a numeric [sku]; item 2 has a
    non-numeric price. *)
Definition body_mixed : jval := JObj [("products", JArr [widget_sku; gadget])].



(** C7: a JSON batch that passes the array check, in which item 2 fails
    the price check, is answered with a 500 and no error list: normalising
    item 1 calls [.trim()] on its numeric [sku] and throws before the
    collected errors are reported.  Nothing is written. *)
Theorem json_upload_throws_before_reporting :
  upload_json false no_failure acme None body_mixed st_prior = (st_prior, R500_Internal) /\
  match json_item "m1" 2 gadget with
  | Ret (e, _) => e = [ErrInvalidPrice "Product" 2 None]
  | TypeError => False
  end.
Proof. split; vm_compute; reflexivity. Qed.

(** One valid row, as a CSV file and as a JSON body. *)
Definition csv_one : csv_file := Records [csv_line "Lamp" "5"].

Definition body_one : jval := JObj [("products", JArr [json_lamp])].

(** C4 (code_bug).  The upload handlers issue the replace-mode delete and
    do not read its error (ucp.js lines 483-488 and 586-590), while
    DELETE /api/products/mine answers 500 when the same delete fails.  When
    that delete fails and the inserts succeed, a replace upload answers 201
    in mode [replace], and the merchant keeps its prior rows beside the new
    batch: at the sample store, acme's old row stays and the reply reports 2
    active products for a one-row replace.  In general, with a failed
    delete, a 201 leaves the prior rows followed by the batch; with a
    delete that succeeds, a 201 leaves exactly the batch, and other
    merchants' rows are unchanged in every case. *)
Theorem replace_upload_ignores_delete_error :
  snd (upload_csv true no_failure acme (Some "true") csv_one st_prior)
    = R201_Uploaded 1 2 true /\
  In (old_row "m1")
     (mine "m1" (products_tbl (fst (upload_csv true no_failure acme (Some "true") csv_one st_prior)))) /\
  snd (upload_json true no_failure acme (Some "true") body_one st_prior)
    = R201_Uploaded 1 2 true /\
  In (old_row "m1")
     (mine "m1" (products_tbl (fst (upload_json true no_failure acme (Some "true") body_one st_prior)))) /\
  (forall fails m file st st' n c b,
     upload_csv true fails m (Some "true") file st = (st', R201_Uploaded n c b) ->
     others (m_id m) (products_tbl st') = others (m_id m) (products_tbl st) /\
     mine (m_id m) (products_tbl st') = mine (m_id m) (products_tbl st) ++ csv_batch m file) /\
  (forall fails m body st st' n c b,
     upload_json true fails m (Some "true") body st = (st', R201_Uploaded n c b) ->
     others (m_id m) (products_tbl st') = others (m_id m) (products_tbl st) /\
     mine (m_id m) (products_tbl st') = mine (m_id m) (products_tbl st) ++ json_batch m body) /\
  (forall fails m file st st' r,
     upload_csv false fails m (Some "true") file st = (st', r) ->
     replace_outcome m (csv_batch m file) st st' r) /\
  (forall fails m body st st' r,
     upload_json false fails m (Some "true") body st = (st', r) ->
     replace_outcome m (json_batch m body) st st' r).
Proof.
  split; [vm_compute; reflexivity|].
  split; [vm_compute; left; reflexivity|].
  split; [vm_compute; reflexivity|].
  split; [vm_compute; left; reflexivity|].
  split; [|split; [|exact replace_upload_when_delete_succeeds]].
  - intros fails m file st st' n c b H.
    destruct (upload_csv_cases true fails m (Some "true") file st)
      as [[r' [E Hw]]|[r0 [rest [Hf [_ [_ E]]]]]]; rewrite E in H.
    + injection H as _ Hr. rewrite Hr in Hw. discriminate Hw.
    + eapply commit_delete_failed; [|exact H].
      intros p Hp. subst file. eapply csv_validate_merchant. exact Hp.
  - intros fails m body st st' n c b H.
    destruct (upload_json_cases true fails m (Some "true") body st)
      as [[r' [E Hw]]|[items [_ [_ [Hv E]]]]]; rewrite E in H.
    + injection H as _ Hr. rewrite Hr in Hw. discriminate Hw.
    + eapply commit_delete_failed; [|exact H].
      eapply json_validate_merchant. exact Hv.
Qed.

End IngestFacts.

(* ------------------------------------------------------------------------- *)
(** * Listings: properties *)

Module FeedFacts.
Import JS Feed.
Local Open Scope string_scope.
Local Open Scope list_scope.

Lemma digits_value_snoc l d :
  digits_value (l ++ [d]) = (digits_value l * 10 + Z.of_nat d)%Z.
Proof. unfold digits_value. rewrite fold_left_app. reflexivity. Qed.

Lemma dec_digits_rev_S f n :
  dec_digits_rev (S f) n =
  Z.to_nat (n mod 10) :: (if Z.eqb (n / 10) 0 then [] else dec_digits_rev f (n / 10)).
Proof. reflexivity. Qed.

Lemma dec_digits_rev_spec f : forall n, (0 <= n < 10 ^ Z.of_nat (S f))%Z ->
  Forall (fun d => d < 10) (dec_digits_rev (S f) n) /\
  digits_value (rev (dec_digits_rev (S f) n)) = n.
Proof.
  induction f as [|f IH]; intros n Hn;
    rewrite dec_digits_rev_S; destruct (Z.eqb (n / 10) 0) eqn:E.
  - apply Z.eqb_eq in E. pose proof (Z.mod_pos_bound n 10 ltac:(lia)).
    pose proof (Z.div_mod n 10 ltac:(lia)).
    split; [constructor; [lia|constructor]|].
    cbn [rev app]. unfold digits_value. cbn [fold_left].
    rewrite Z2Nat.id by lia. lia.
  - apply Z.eqb_neq in E. exfalso. cbn in Hn. apply E. apply Z.div_small. lia.
  - apply Z.eqb_eq in E. pose proof (Z.mod_pos_bound n 10 ltac:(lia)).
    pose proof (Z.div_mod n 10 ltac:(lia)).
    split; [constructor; [lia|constructor]|].
    cbn [rev app]. unfold digits_value. cbn [fold_left].
    rewrite Z2Nat.id by lia. lia.
  - apply Z.eqb_neq in E.
    pose proof (Z.mod_pos_bound n 10 ltac:(lia)).
    pose proof (Z.div_mod n 10 ltac:(lia)).
    destruct (IH (n / 10)%Z) as [Hf Hv].
    { split; [apply Z.div_pos; lia|].
      apply Z.div_lt_upper_bound; [lia|].
      rewrite Nat2Z.inj_succ, Z.pow_succ_r in Hn by lia. lia. }
    split; [constructor; [lia|exact Hf]|].
    cbn [rev]. rewrite digits_value_snoc, Hv. rewrite Z2Nat.id by lia. lia.
Qed.

Lemma fuel_enough n : (0 <= n)%Z -> (n < 10 ^ Z.of_nat (S (Z.to_nat (Z.log2 n))))%Z.
Proof.
  intros Hn. rewrite Nat2Z.inj_succ, Z2Nat.id by apply Z.log2_nonneg.
  destruct (Z.eq_dec n 0) as [->|Hne]; [cbn; lia|].
  destruct (Z.log2_spec n) as [_ H2]; [lia|].
  eapply Z.lt_le_trans; [exact H2|].
  apply Z.pow_le_mono_l. lia.
Qed.

Lemma digit_char_props d : d < 10 ->
  is_ws (digit_char d) = false /\ is_digit (digit_char d) = true /\
  nat_of_ascii (digit_char d) - 48 = d /\
  Ascii.eqb (digit_char d) "-"%char = false /\ Ascii.eqb (digit_char d) "+"%char = false /\
  Ascii.eqb (digit_char d) "x"%char = false /\ Ascii.eqb (digit_char d) "X"%char = false.
Proof.
  intros H.
  do 10 (destruct d as [|d]; [vm_compute; repeat split; reflexivity|]). lia.
Qed.

Lemma span_digits_map ds : Forall (fun d => d < 10) ds ->
  span_digits (map digit_char ds) = (ds, []).
Proof.
  induction 1 as [|d ds Hd _ IH]; [reflexivity|].
  destruct (digit_char_props d Hd) as [_ [Hdig [Hv _]]].
  cbn [map span_digits]. rewrite Hdig, IH, Hv. reflexivity.
Qed.

Lemma show_nonneg_spec n : (0 <= n)%Z ->
  exists d ds, show_nonneg n = map digit_char (d :: ds) /\
    Forall (fun d => d < 10) (d :: ds) /\ digits_value (d :: ds) = n.
Proof.
  intros Hn. unfold show_nonneg.
  destruct (dec_digits_rev_spec (Z.to_nat (Z.log2 n)) n) as [Hf Hv];
    [split; [exact Hn|apply fuel_enough; exact Hn]|].
  remember (rev (dec_digits_rev (S (Z.to_nat (Z.log2 n))) n)) as l eqn:El.
  destruct l as [|d ds].
  - cbn [dec_digits_rev] in El. destruct (Z.eqb (n / 10) 0);
      [discriminate El|]. cbn [rev] in El. destruct (rev _); discriminate El.
  - exists d, ds. split; [reflexivity|]. split; [|exact Hv].
    rewrite El. apply Forall_rev. exact Hf.
Qed.

Lemma drop_ws_nonws c l : is_ws c = false -> drop_ws (c :: l) = c :: l.
Proof. intros H. cbn [drop_ws]. rewrite H. reflexivity. Qed.

Lemma parseInt_digits (sign : Z) d ds :
  Forall (fun d => d < 10) (d :: ds) ->
  (match map digit_char (d :: ds) with
   | z :: x :: r =>
       if Ascii.eqb z "0"%char && (Ascii.eqb x "x"%char || Ascii.eqb x "X"%char)
       then match span_hex r with [] => None | ds => Some (sign * hex_value ds)%Z end
       else match fst (span_digits (map digit_char (d :: ds))) with
            | [] => None | ds => Some (sign * digits_value ds)%Z end
   | _ => match fst (span_digits (map digit_char (d :: ds))) with
          | [] => None | ds => Some (sign * digits_value ds)%Z end
   end) = Some (sign * digits_value (d :: ds))%Z.
Proof.
  intros Hf. rewrite (span_digits_map _ Hf). cbn [fst].
  destruct ds as [|d2 ds]; [reflexivity|].
  inversion Hf as [|? ? _ Hf2]; subst. inversion Hf2; subst.
  cbn [map]. destruct (digit_char_props d2) as [_ [_ [_ [_ [_ [Hx HX]]]]]]; [assumption|].
  rewrite Hx, HX, andb_false_r. reflexivity.
Qed.

Lemma parseInt_show n : parseInt (Z_to_string n) = Some n.
Proof.
  unfold Z_to_string, parseInt. rewrite list_ascii_of_string_of_list_ascii.
  destruct (Z.ltb n 0) eqn:Hn.
  - apply Z.ltb_lt in Hn.
    destruct (show_nonneg_spec (- n)) as [d [ds [Hs [Hf Hv]]]]; [lia|].
    rewrite Hs. rewrite drop_ws_nonws by reflexivity.
    cbv beta iota zeta. rewrite Ascii.eqb_refl.
    rewrite parseInt_digits by exact Hf. rewrite Hv. f_equal. lia.
  - apply Z.ltb_ge in Hn.
    destruct (show_nonneg_spec n) as [d [ds [Hs [Hf Hv]]]]; [lia|].
    inversion Hf as [|? ? Hd _]; subst.
    destruct (digit_char_props d Hd) as [Hw [_ [_ [Hm [Hp _]]]]].
    rewrite Hs. cbn [map]. rewrite drop_ws_nonws by exact Hw.
    cbv beta iota zeta. rewrite Hm, Hp.
    change (digit_char d :: map digit_char ds) with (map digit_char (d :: ds)).
    rewrite (span_digits_map _ Hf). cbn [fst]. rewrite Z.mul_1_l.
    destruct ds as [|d2 ds]; [reflexivity|].
    inversion Hf as [|? ? _ Hf2]; subst. inversion Hf2; subst.
    destruct (digit_char_props d2) as [_ [_ [_ [_ [_ [Hx HX]]]]]]; [assumption|].
    cbn [map]. rewrite Hx, HX, andb_false_r. reflexivity.
Qed.

Lemma int_or_nonzero v d : d <> 0%Z -> int_or v d <> 0%Z.
Proof.
  unfold int_or. destruct (parseInt_q v) as [n|]; [|tauto].
  destruct (Z.eqb_spec n 0); tauto.
Qed.

Lemma int_or_neg v d : (0 <= d)%Z ->
  ((int_or v d < 0)%Z <-> exists n, parseInt_q v = Some n /\ (n < 0)%Z).
Proof.
  intros Hd. unfold int_or. destruct (parseInt_q v) as [n|].
  - destruct (Z.eqb_spec n 0) as [->|Hn].
    + split; [lia|]. intros [m [[= <-] Hm]]. lia.
    + split; [intros H; exists n; split; [reflexivity|exact H]|].
      intros [m [[= <-] Hm]]. exact Hm.
  - split; [lia|]. intros [m [Hm _]]. discriminate Hm.
Qed.

Lemma int_or_default v d :
  parseInt_q v = None \/ parseInt_q v = Some 0%Z -> int_or v d = d.
Proof. unfold int_or. intros [-> | ->]; reflexivity. Qed.

Lemma page_limit_bounds dflt cap qp ql :
  (0 < dflt <= cap)%Z ->
  let pl := page_limit dflt cap qp ql in
  fst pl <> 0%Z /\ snd pl <> 0%Z /\ (snd pl <= cap)%Z /\
  ((fst pl < 0)%Z <-> exists n, parseInt_q qp = Some n /\ (n < 0)%Z) /\
  ((snd pl < 0)%Z <-> exists n, parseInt_q ql = Some n /\ (n < 0)%Z) /\
  (parseInt_q qp = None \/ parseInt_q qp = Some 0%Z -> fst pl = 1%Z) /\
  (parseInt_q ql = None \/ parseInt_q ql = Some 0%Z -> snd pl = dflt).
Proof.
  intros Hd. cbn zeta. unfold page_limit. cbn [fst snd].
  pose proof (int_or_nonzero ql dflt ltac:(lia)).
  pose proof (int_or_nonzero qp 1 ltac:(lia)).
  pose proof (int_or_neg ql dflt ltac:(lia)).
  pose proof (int_or_neg qp 1 ltac:(lia)).
  split; [assumption|]. split; [lia|]. split; [lia|].
  split; [assumption|]. split.
  - rewrite <- H1. lia.
  - split; intros Hq; rewrite (int_or_default _ _ Hq); lia.
Qed.

(** Lines 126-129 and 644-646: the page and the limit of both listings are
    never [0], the limit never exceeds its cap (500 for the public feed, 200
    for the merchant's own listing); an absent, non-numeric or zero value
    falls back to page 1 and to the default limit (100, resp. 50); a
    negative query value is kept as it is, so page and limit are negative
    exactly when the query parses to a negative number. *)
Theorem listing_params_bounds qp ql :
  (let pl := feed_params qp ql in
   fst pl <> 0%Z /\ snd pl <> 0%Z /\ (snd pl <= 500)%Z /\
   ((fst pl < 0)%Z <-> exists n, parseInt_q qp = Some n /\ (n < 0)%Z) /\
   ((snd pl < 0)%Z <-> exists n, parseInt_q ql = Some n /\ (n < 0)%Z) /\
   (parseInt_q qp = None \/ parseInt_q qp = Some 0%Z -> fst pl = 1%Z) /\
   (parseInt_q ql = None \/ parseInt_q ql = Some 0%Z -> snd pl = 100%Z)) /\
  (let pl := mine_params qp ql in
   fst pl <> 0%Z /\ snd pl <> 0%Z /\ (snd pl <= 200)%Z /\
   ((fst pl < 0)%Z <-> exists n, parseInt_q qp = Some n /\ (n < 0)%Z) /\
   ((snd pl < 0)%Z <-> exists n, parseInt_q ql = Some n /\ (n < 0)%Z) /\
   (parseInt_q qp = None \/ parseInt_q qp = Some 0%Z -> fst pl = 1%Z) /\
   (parseInt_q ql = None \/ parseInt_q ql = Some 0%Z -> snd pl = 50%Z)).
Proof.
  split; apply page_limit_bounds; lia.
Qed.

Lemma ceil_div_spec c l : (0 < l)%Z ->
  ((ceil_div c l - 1) * l < c <= ceil_div c l * l)%Z.
Proof.
  intros Hl. unfold ceil_div.
  pose proof (Z.div_mod (- c) l ltac:(lia)).
  pose proof (Z.mod_pos_bound (- c) l Hl). nia.
Qed.

Lemma lt_ceil_div p c l : (0 < l)%Z -> ((p * l < c)%Z <-> (p < ceil_div c l)%Z).
Proof.
  intros Hl. pose proof (ceil_div_spec c l Hl). split; intros H0.
  - destruct (Z.lt_ge_cases p (ceil_div c l)) as [|Hge]; [assumption|].
    pose proof (Z.mul_le_mono_nonneg_r _ _ l ltac:(lia) Hge). lia.
  - assert (p <= ceil_div c l - 1)%Z as Hp by lia.
    pose proof (Z.mul_le_mono_nonneg_r _ _ l ltac:(lia) Hp). lia.
Qed.

Lemma digit_chars_digits ds : Forall (fun d => d < 10) ds ->
  Forall (fun ch => is_digit ch = true) (map digit_char ds).
Proof.
  induction 1 as [|d ds Hd _ IH]; constructor; [|exact IH].
  apply (digit_char_props d Hd).
Qed.

Lemma Z_to_string_chars n :
  Forall (fun ch => is_digit ch || Ascii.eqb ch "-"%char = true)
    (list_ascii_of_string (Z_to_string n)).
Proof.
  unfold Z_to_string. rewrite list_ascii_of_string_of_list_ascii.
  assert (forall m, (0 <= m)%Z ->
    Forall (fun ch => is_digit ch || Ascii.eqb ch "-"%char = true) (show_nonneg m)) as Hs.
  { intros m Hm. destruct (show_nonneg_spec m Hm) as [d [ds [-> [Hf _]]]].
    apply digit_chars_digits in Hf. eapply Forall_impl; [|exact Hf].
    intros ch ->. reflexivity. }
  destruct (Z.ltb_spec n 0).
  - constructor; [reflexivity|]. apply Hs. lia.
  - apply Hs. lia.
Qed.

(** Lines 126-129 and 209-215: the [next] link is the feed URL with
    [page] and [limit] query values made of digits and [-] only; reading
    those values back with the route's own parsing gives the next page
    ([page + 1], or page 1 in place of page 0) and the same limit. *)
Theorem feed_next_link_roundtrip baseUrl slug qp ql count link :
  pg_next (feed_pagination baseUrl slug qp ql count) = Some link ->
  let p := feed_pagination baseUrl slug qp ql count in
  exists A B,
    link = (baseUrl ++ "/api/ucp/v1/" ++ slug ++ "/products?page=" ++ A
            ++ "&limit=" ++ B)%string /\
    Forall (fun ch => is_digit ch || Ascii.eqb ch "-"%char = true) (list_ascii_of_string A) /\
    Forall (fun ch => is_digit ch || Ascii.eqb ch "-"%char = true) (list_ascii_of_string B) /\
    feed_params (Some (QStr A)) (Some (QStr B)) =
    (if Z.eqb (pg_page p + 1) 0 then 1%Z else (pg_page p + 1)%Z, pg_limit p).
Proof.
  unfold feed_pagination.
  pose proof (page_limit_bounds 100 500 qp ql ltac:(lia)) as Hb. cbn zeta in Hb.
  unfold feed_params in *.
  destruct (page_limit 100 500 qp ql) as [page limit]. cbn [fst snd] in Hb.
  cbn [pg_next pg_page pg_limit]. intros H.
  destruct (Z.ltb (page * limit) count); [|discriminate H].
  injection H as <-. exists (Z_to_string (page + 1)), (Z_to_string limit).
  split; [reflexivity|]. split; [apply Z_to_string_chars|].
  split; [apply Z_to_string_chars|].
  unfold page_limit, int_or, parseInt_q, qstring. rewrite !parseInt_show.
  destruct (Z.eqb_spec limit 0) as [|_]; [lia|]. f_equal. lia.
Qed.

Lemma feed_next_link_roundtrip_witness :
  pg_next (feed_pagination "https://shop.example" "acme" None None 250) =
    Some "https://shop.example/api/ucp/v1/acme/products?page=2&limit=100" /\
  let p := feed_pagination "https://shop.example" "acme" None None 250 in
  exists A B,
    "https://shop.example/api/ucp/v1/acme/products?page=2&limit=100" =
      ("https://shop.example" ++ "/api/ucp/v1/" ++ "acme" ++ "/products?page=" ++ A
       ++ "&limit=" ++ B)%string /\
    Forall (fun ch => is_digit ch || Ascii.eqb ch "-"%char = true) (list_ascii_of_string A) /\
    Forall (fun ch => is_digit ch || Ascii.eqb ch "-"%char = true) (list_ascii_of_string B) /\
    feed_params (Some (QStr A)) (Some (QStr B)) =
    (if Z.eqb (pg_page p + 1) 0 then 1%Z else (pg_page p + 1)%Z, pg_limit p).
Proof.
  assert (H : pg_next (feed_pagination "https://shop.example" "acme" None None 250) =
    Some "https://shop.example/api/ucp/v1/acme/products?page=2&limit=100")
    by (vm_compute; reflexivity).
  split; [exact H|]. exact (feed_next_link_roundtrip _ _ _ _ _ _ H).
Defined.

(** Lines 126-129 and 209-215: with a positive limit, the public feed
    gives a [next] link exactly when the page is below [total_pages], and
    [total_pages] is the least number of pages of [limit] rows that hold
    [total] rows; the same bound holds for the merchant's own listing
    (lines 644-646 and 663-669). *)
Theorem listing_total_pages baseUrl slug qp ql count :
  (let p := feed_pagination baseUrl slug qp ql count in
   (0 < pg_limit p)%Z ->
   (pg_next p <> None <-> (pg_page p < pg_total_pages p)%Z) /\
   ((pg_total_pages p - 1) * pg_limit p < pg_total p <= pg_total_pages p * pg_limit p)%Z) /\
  (let p := mine_pagination qp ql count in
   (0 < pg_limit p)%Z ->
   ((pg_total_pages p - 1) * pg_limit p < pg_total p <= pg_total_pages p * pg_limit p)%Z).
Proof.
  unfold feed_pagination, mine_pagination, feed_params, mine_params.
  split; cbn zeta.
  - destruct (page_limit 100 500 qp ql) as [page limit].
    cbn [pg_next pg_page pg_limit pg_total pg_total_pages]. intros Hl.
    split; [|apply ceil_div_spec; exact Hl].
    rewrite <- lt_ceil_div by exact Hl.
    destruct (Z.ltb_spec (page * limit) count); split; intros H0;
      solve [discriminate | lia | congruence].
  - destruct (page_limit 50 200 qp ql) as [page limit].
    cbn [pg_limit pg_total pg_total_pages]. apply ceil_div_spec.
Qed.

End FeedFacts.

Module AuthFacts.
Import JS Catalog Ingest IngestFacts Auth.
Local Open Scope string_scope.
Local Open Scope list_scope.

(** Merchant rows other than those of [mid]. *)
Definition other_merchants (mid : string) (ms : list merchant) : list merchant :=
  filter (fun x => negb (String.eqb (m_id x) mid)) ms.

(** The store changed at most in the rows of merchant [mid]. *)
Definition scoped (mid : string) (st st' : db) : Prop :=
  others mid (products_tbl st') = others mid (products_tbl st) /\
  other_merchants mid (merchants_tbl st') = other_merchants mid (merchants_tbl st).

Lemma scoped_refl mid st : scoped mid st st.
Proof. split; reflexivity. Qed.

Lemma other_merchants_set mid v ms :
  other_merchants mid
    (map (fun m => if String.eqb (m_id m) mid then
                     {| m_id := m_id m; slug := slug m; product_count := v;
                        is_active := is_active m |}
                   else m) ms) = other_merchants mid ms.
Proof.
  induction ms as [|x ms IH]; [reflexivity|]. cbn [map].
  destruct (String.eqb (m_id x) mid) eqn:E; unfold other_merchants in *; cbn [filter m_id];
    rewrite E; cbn [negb]; [exact IH|]. f_equal. exact IH.
Qed.

Lemma scoped_set_count mid v st st' :
  scoped mid st st' -> scoped mid st (set_product_count mid v st').
Proof.
  intros [Hp Hm]. split; [exact Hp|].
  unfold set_product_count; cbn [merchants_tbl]. rewrite other_merchants_set. exact Hm.
Qed.

Lemma scoped_log mid o st st' : scoped mid st st' -> scoped mid st (log o st').
Proof. intros H. exact H. Qed.

Lemma others_after_replace del_fails mid m rep st :
  m_id m = mid ->
  others mid (products_tbl (after_replace del_fails m rep st)) = others mid (products_tbl st) /\
  merchants_tbl (after_replace del_fails m rep st) = merchants_tbl st.
Proof.
  intros <-. destruct rep; [|split; reflexivity].
  destruct del_fails; [split; reflexivity|].
  unfold after_replace, delete_products; cbn [products_tbl merchants_tbl].
  fold (others (m_id m) (products_tbl st)). rewrite others_others. split; reflexivity.
Qed.

Lemma commit_scoped del_fails fails m rep P st :
  (forall p, In p P -> merchant_id p = m_id m) ->
  scoped (m_id m) st (fst (commit del_fails fails m rep P st)).
Proof.
  intros Hown.
  destruct (others_after_replace del_fails (m_id m) m rep st eq_refl) as [Ho Hm].
  destruct (commit_cases del_fails fails m rep P st)
    as [[st2 [_ [Hp [Hm2 ->]]]]|[j0 [_ [_ [_ ->]]]]]; cbn [fst].
  - apply scoped_set_count, scoped_log. split.
    + rewrite Hp, others_app, (others_owned _ P Hown), app_nil_r. exact Ho.
    + rewrite Hm2, Hm. reflexivity.
  - set (n0 := batchSize * j0). split; cbn [products_tbl merchants_tbl].
    + assert (Hf : forall p, In p (firstn n0 P) -> merchant_id p = m_id m)
        by (intros p Hin; apply Hown; eapply in_firstn_in; exact Hin).
      rewrite others_app, (others_owned _ _ Hf), app_nil_r. exact Ho.
    + rewrite Hm. reflexivity.
Qed.

Lemma upload_csv_scoped del_fails fails m q file st :
  scoped (m_id m) st (fst (upload_csv del_fails fails m q file st)).
Proof.
  destruct (upload_csv_cases del_fails fails m q file st) as [[r [-> _]]|[r0 [rest [-> [_ [_ ->]]]]]].
  - apply scoped_refl.
  - apply commit_scoped. intros p Hin. eapply csv_validate_merchant. exact Hin.
Qed.

Lemma upload_json_scoped del_fails fails m q body st :
  scoped (m_id m) st (fst (upload_json del_fails fails m q body st)).
Proof.
  destruct (upload_json_cases del_fails fails m q body st)
    as [[r [-> _]]|[items [_ [_ [Hv ->]]]]].
  - apply scoped_refl.
  - apply commit_scoped. intros p Hin. eapply json_validate_merchant; [exact Hv|exact Hin].
Qed.

Lemma purge_mine_scoped m st : scoped (m_id m) st (purge_mine m st).
Proof.
  unfold purge_mine. apply scoped_set_count. split.
  - unfold delete_products; cbn [products_tbl].
    fold (others (m_id m) (products_tbl st)). apply others_others.
  - reflexivity.
Qed.

Lemma authenticated_row apiKey merchants m :
  authenticateMerchant apiKey merchants = Authenticated m ->
  exists r, In r merchants /\ mrow r = m /\ is_active m = true /\
    apiKey = Some (api_key r) /\ api_key r <> "" /\
    (forall r', In r' merchants -> api_key r' = api_key r ->
       is_active (mrow r') = true -> r' = r).
Proof.
  unfold authenticateMerchant. destruct apiKey as [k|]; [|discriminate].
  destruct (String.eqb_spec k "") as [|Hk]; [discriminate|].
  destruct (filter _ merchants) as [|r [|r2 rs]] eqn:Hf; cbn [single]; try discriminate.
  intros [= <-].
  assert (Hr : In r (filter (fun r => String.eqb (api_key r) k && is_active (mrow r)) merchants))
    by (rewrite Hf; left; reflexivity).
  apply filter_In in Hr. destruct Hr as [Hin Hb]. apply andb_prop in Hb.
  destruct Hb as [Hkey Hact]. apply String.eqb_eq in Hkey.
  exists r. split; [exact Hin|]. split; [reflexivity|]. split; [exact Hact|].
  split; [rewrite Hkey; reflexivity|]. split; [rewrite Hkey; exact Hk|].
  intros r' Hin' Hk' Ha'.
  assert (Hr' : In r' (filter (fun r => String.eqb (api_key r) k && is_active (mrow r)) merchants)).
  { apply filter_In. split; [exact Hin'|]. rewrite Hk', Hkey, String.eqb_refl, Ha'. reflexivity. }
  rewrite Hf in Hr'. destruct Hr' as [<-|[]]. reflexivity.
Qed.

(** authenticateMerchant (ucp.js lines 385-405): an absent or empty
    [X-API-Key] header is answered 401 Missing whatever the table holds; a
    request is authenticated as [m] only when the header is a non-empty key
    of a row of [m], [m] is active, and no other active row has that key; a
    key shared by two active rows, or held only by inactive merchants, is
    answered 401 Invalid. *)
Theorem authenticate_merchant_spec apiKey merchants :
  (authenticateMerchant apiKey merchants = MissingKey <->
     apiKey = None \/ apiKey = Some "") /\
  (forall m, authenticateMerchant apiKey merchants = Authenticated m ->
     exists r, In r merchants /\ mrow r = m /\ is_active m = true /\
       apiKey = Some (api_key r) /\ api_key r <> "" /\
       (forall r', In r' merchants -> api_key r' = api_key r ->
          is_active (mrow r') = true -> r' = r)) /\
  (forall k r1 r2 rs, apiKey = Some k -> k <> "" ->
     filter (fun r => String.eqb (api_key r) k && is_active (mrow r)) merchants
       = r1 :: r2 :: rs ->
     authenticateMerchant apiKey merchants = InvalidKey) /\
  (forall k, apiKey = Some k -> k <> "" ->
     (forall r, In r merchants -> api_key r = k -> is_active (mrow r) = false) ->
     authenticateMerchant apiKey merchants = InvalidKey).
Proof.
  split; [|split; [exact (authenticated_row apiKey merchants)|split]].
  - unfold authenticateMerchant. destruct apiKey as [k|].
    + destruct (String.eqb_spec k "") as [->|Hk].
      * split; [intros _; right; reflexivity|reflexivity].
      * split.
        -- destruct (single _) ; discriminate.
        -- intros [H|H]; [discriminate H|]. injection H as H. contradiction.
    + split; [intros _; left; reflexivity|reflexivity].
  - intros k r1 r2 rs -> Hk Hf. unfold authenticateMerchant.
    destruct (String.eqb_spec k "") as [|_]; [contradiction|].
    rewrite Hf. reflexivity.
  - intros k -> Hk Hnone. unfold authenticateMerchant.
    destruct (String.eqb_spec k "") as [|_]; [contradiction|].
    destruct (filter _ merchants) as [|r0 rs] eqn:Hf; [reflexivity|].
    assert (Hr : In r0 (filter (fun r => String.eqb (api_key r) k && is_active (mrow r))
                          merchants)) by (rewrite Hf; left; reflexivity).
    apply filter_In in Hr. destruct Hr as [Hin Hb]. apply andb_prop in Hb.
    destruct Hb as [Hkey Hact]. apply String.eqb_eq in Hkey.
    rewrite (Hnone r0 Hin Hkey) in Hact. discriminate Hact.
Qed.

(** What a route behind [authenticateMerchant] may have done: a 401 leaves
    the store as it was; a handled request changed at most the rows of an
    active merchant whose key was presented. *)
Definition guarded {R} (apiKey : option string) (merchants : list merchant_row)
    (st st' : db) (r : auth_reply R) : Prop :=
  match r with
  | Handled _ =>
      exists row, In row merchants /\ is_active (mrow row) = true /\
        apiKey = Some (api_key row) /\ scoped (m_id (mrow row)) st st'
  | _ => st' = st
  end.

Lemma with_auth_guarded {R} apiKey merchants (h : merchant -> db -> db * R) st :
  (forall m, scoped (m_id m) st (fst (h m st))) ->
  guarded apiKey merchants st (fst (with_auth apiKey merchants h st))
    (snd (with_auth apiKey merchants h st)).
Proof.
  intros Hh. unfold with_auth.
  destruct (authenticateMerchant apiKey merchants) eqn:Ha; try reflexivity.
  destruct (authenticated_row _ _ _ Ha) as [row [Hin [<- [Hact [Hk _]]]]].
  specialize (Hh (mrow row)). destruct (h (mrow row) st) as [st' r]. cbn [fst snd] in *.
  exists row. split; [exact Hin|]. split; [exact Hact|]. split; [exact Hk|exact Hh].
Qed.

(** The three routes mounted behind authenticateMerchant that write
    (POST /api/products/upload, POST /api/products/json and
    DELETE /api/products/mine, ucp.js lines 410, 540 and 679): a request
    answered 401 changes nothing; any other request changes neither the
    product rows nor the merchant rows of any merchant other than the one
    whose active row holds the presented key. *)
Theorem protected_routes_scoped del_fails fails apiKey merchants q file body st :
  guarded apiKey merchants st (fst (upload_route del_fails fails apiKey merchants q file st))
    (snd (upload_route del_fails fails apiKey merchants q file st)) /\
  guarded apiKey merchants st (fst (json_route del_fails fails apiKey merchants q body st))
    (snd (json_route del_fails fails apiKey merchants q body st)) /\
  guarded apiKey merchants st (fst (delete_mine_route apiKey merchants st))
    (snd (delete_mine_route apiKey merchants st)).
Proof.
  split; [|split]; apply with_auth_guarded; intros m.
  - apply upload_csv_scoped.
  - apply upload_json_scoped.
  - apply purge_mine_scoped.
Qed.

(** What an upload without [replace=true] leaves behind, given the
    normalised batch [B] of the request. *)
Definition append_outcome (m : merchant_ctx) (B : list product)
    (st st' : db) (r : response) : Prop :=
  others (m_id m) (products_tbl st') = others (m_id m) (products_tbl st) /\
  match r with
  | R201_Uploaded _ _ _ => mine (m_id m) (products_tbl st') = mine (m_id m) (products_tbl st) ++ B
  | R500_InsertFailed n =>
      mine (m_id m) (products_tbl st') = mine (m_id m) (products_tbl st) ++ firstn n B
  | _ => st' = st
  end.

Lemma commit_append del_fails fails m P st :
  (forall p, In p P -> merchant_id p = m_id m) ->
  append_outcome m P st (fst (commit del_fails fails m false P st)) (snd (commit del_fails fails m false P st)).
Proof.
  intros Hown. pose proof (commit_scoped del_fails fails m false P st Hown) as [Ho _].
  split; [exact Ho|].
  destruct (commit_cases del_fails fails m false P st)
    as [[st2 [_ [Hp [_ E]]]]|[j0 [_ [_ [_ E]]]]]; rewrite E; cbn [fst snd].
  - unfold set_product_count, log; cbn [products_tbl]. rewrite Hp.
    cbn [after_replace]. rewrite mine_app, (mine_owned _ P Hown). reflexivity.
  - set (n0 := batchSize * j0). cbn [products_tbl after_replace].
    assert (Hf : forall p, In p (firstn n0 P) -> merchant_id p = m_id m)
      by (intros p Hin; apply Hown; eapply in_firstn_in; exact Hin).
    rewrite mine_app, (mine_owned _ _ Hf). reflexivity.
Qed.

Lemma append_outcome_no_write m B st r :
  writes r = false -> append_outcome m B st st r.
Proof.
  intros Hw. split; [reflexivity|].
  destruct r; cbn [writes] in Hw; solve [discriminate Hw | reflexivity].
Qed.

(** Append mode (ucp.js lines 482-507 and 584-609): unless the [replace]
    query value is exactly the string [true], an upload deletes nothing:
    every other merchant's rows are unchanged, and the merchant keeps all
    its prior rows, followed by the whole normalised batch after a 201, or
    by the first [n] rows of the batch after a 500 reporting [n] inserted
    rows; any other answer leaves the store as it was. *)
Theorem append_upload_keeps_prior del_fails fails m q st :
  replace_flag q = false ->
  (forall file, append_outcome m (csv_batch m file) st
     (fst (upload_csv del_fails fails m q file st)) (snd (upload_csv del_fails fails m q file st))) /\
  (forall body, append_outcome m (json_batch m body) st
     (fst (upload_json del_fails fails m q body st)) (snd (upload_json del_fails fails m q body st))).
Proof.
  intros Hq. split.
  - intros file.
    destruct (upload_csv_cases del_fails fails m q file st)
      as [[r [E Hw]]|[r0 [rest [Hf [_ [_ E]]]]]]; rewrite E; cbn [fst snd].
    + apply append_outcome_no_write. exact Hw.
    + rewrite Hq. apply commit_append. intros p Hin.
      eapply csv_validate_merchant. subst file. exact Hin.
  - intros body.
    destruct (upload_json_cases del_fails fails m q body st)
      as [[r [E Hw]]|[items [_ [_ [Hv E]]]]]; rewrite E; cbn [fst snd].
    + apply append_outcome_no_write. exact Hw.
    + rewrite Hq. apply commit_append. intros p Hin.
      eapply json_validate_merchant; [exact Hv|exact Hin].
Qed.

Lemma append_upload_keeps_prior_witness :
  replace_flag (Some "TRUE") = false /\
  (forall file, append_outcome acme (csv_batch acme file) st_prior
     (fst (upload_csv false no_failure acme (Some "TRUE") file st_prior))
     (snd (upload_csv false no_failure acme (Some "TRUE") file st_prior))) /\
  (forall body, append_outcome acme (json_batch acme body) st_prior
     (fst (upload_json false no_failure acme (Some "TRUE") body st_prior))
     (snd (upload_json false no_failure acme (Some "TRUE") body st_prior))).
Proof.
  assert (H : replace_flag (Some "TRUE") = false) by reflexivity.
  split; [exact H|]. exact (append_upload_keeps_prior false no_failure acme (Some "TRUE") st_prior H).
Defined.

End AuthFacts.

Module RowFacts.
Import JS Catalog Ingest IngestFacts.
Local Open Scope string_scope.
Local Open Scope list_scope.

(** ** trim *)

Definition head_ok (l : list ascii) : Prop :=
  match l with c :: _ => is_ws c = false | [] => True end.

(** No white space at either end. *)
Definition trimmed_list (l : list ascii) : Prop := head_ok l /\ head_ok (rev l).

Definition trim_list (l : list ascii) : list ascii := rev (drop_ws (rev (drop_ws l))).

Lemma trim_as_list s : trim s = string_of_list_ascii (trim_list (list_ascii_of_string s)).
Proof. reflexivity. Qed.

Lemma drop_ws_head l : head_ok (drop_ws l).
Proof.
  induction l as [|c l IH]; [exact I|]. cbn [drop_ws].
  destruct (is_ws c) eqn:E; [exact IH|exact E].
Qed.

Lemma drop_ws_id l : head_ok l -> drop_ws l = l.
Proof. destruct l as [|c l]; [reflexivity|]. cbn. intros H. rewrite H. reflexivity. Qed.

Lemma drop_ws_suffix l : exists p, l = p ++ drop_ws l.
Proof.
  induction l as [|c l [p Hp]]; [exists []; reflexivity|]. cbn [drop_ws].
  destruct (is_ws c); [exists (c :: p); cbn; f_equal; exact Hp|exists []; reflexivity].
Qed.

Lemma head_ok_app x y : x <> [] -> head_ok (x ++ y) -> head_ok x.
Proof. destruct x; [contradiction|]. intros _ H. exact H. Qed.

Lemma trim_list_trimmed l : trimmed_list (trim_list l).
Proof.
  unfold trim_list, trimmed_list. rewrite rev_involutive. split; [|apply drop_ws_head].
  set (a := drop_ws l). destruct (drop_ws_suffix (rev a)) as [p Hp].
  destruct (drop_ws (rev a)) as [|c b] eqn:Eb; [exact I|].
  apply (head_ok_app _ (rev p)); [intros Hr; apply (f_equal (@length _)) in Hr; rewrite length_rev in Hr; discriminate Hr|].
  rewrite <- rev_app_distr, <- Hp, rev_involutive. apply drop_ws_head.
Qed.

Lemma trim_list_id l : trimmed_list l -> trim_list l = l.
Proof.
  intros [H1 H2]. unfold trim_list.
  rewrite (drop_ws_id l H1), (drop_ws_id (rev l) H2). apply rev_involutive.
Qed.

Lemma trim_trim s : trim (trim s) = trim s.
Proof.
  rewrite !trim_as_list, list_ascii_of_string_of_list_ascii, trim_list_id;
    [reflexivity|apply trim_list_trimmed].
Qed.

(** ** toUpperCase *)

Lemma leb_false a b : b < a -> Nat.leb a b = false.
Proof. intros H. apply Nat.leb_gt. exact H. Qed.

Lemma upcase_char_cases c :
  upcase_char c = c \/
  (97 <= nat_of_ascii c <= 122 /\ nat_of_ascii (upcase_char c) = nat_of_ascii c - 32).
Proof.
  unfold upcase_char. destruct (Nat.leb 97 (nat_of_ascii c) && Nat.leb (nat_of_ascii c) 122) eqn:E;
    [right|left; reflexivity].
  apply andb_prop in E. destruct E as [E1 E2]. apply Nat.leb_le in E1, E2.
  split; [lia|]. apply nat_ascii_embedding.
  pose proof (nat_ascii_bounded c). lia.
Qed.

Lemma is_ws_upcase c : is_ws (upcase_char c) = is_ws c.
Proof.
  destruct (upcase_char_cases c) as [->|[Hc Hu]]; [reflexivity|].
  unfold is_ws. rewrite Hu.
  rewrite (leb_false (nat_of_ascii c - 32) 13), (leb_false (nat_of_ascii c) 13) by lia.
  destruct (Nat.eqb_spec (nat_of_ascii c - 32) 32), (Nat.eqb_spec (nat_of_ascii c) 32);
    rewrite ?andb_false_r; cbn; lia || reflexivity.
Qed.

Lemma upcase_upcase c : upcase_char (upcase_char c) = upcase_char c.
Proof.
  destruct (upcase_char_cases c) as [E|[Hc Hu]]; [rewrite E; exact E|].
  unfold upcase_char at 1. rewrite Hu, (leb_false 97 (nat_of_ascii c - 32)) by lia.
  reflexivity.
Qed.

Lemma head_ok_map_upcase l : head_ok l -> head_ok (map upcase_char l).
Proof. destruct l as [|c l]; [tauto|]. cbn. rewrite is_ws_upcase. tauto. Qed.

Lemma toUpperCase_trim s :
  trim (toUpperCase (trim s)) = toUpperCase (trim s) /\
  toUpperCase (toUpperCase (trim s)) = toUpperCase (trim s).
Proof.
  unfold toUpperCase. rewrite !trim_as_list, !list_ascii_of_string_of_list_ascii.
  destruct (trim_list_trimmed (list_ascii_of_string s)) as [H1 H2].
  split.
  - rewrite trim_list_id; [reflexivity|]. split; [apply head_ok_map_upcase; exact H1|].
    rewrite <- map_rev. apply head_ok_map_upcase. exact H2.
  - rewrite map_map. f_equal. apply map_ext. apply upcase_upcase.
Qed.

(** ** Stored rows *)

(** An optional text column: SQL NULL, or a non-empty trimmed text. *)
Definition opt_ok (v : option string) : Prop :=
  match v with None => True | Some t => t <> "" /\ trim t = t end.

(** What every row stored by an upload satisfies, whatever its source. *)
Definition row_shape (mid : string) (p : product) : Prop :=
  merchant_id p = mid /\ trim (name p) = name p /\ trim (url p) = url p /\
  price p <> NaN /\ trim (currency p) = currency p /\
  toUpperCase (currency p) = currency p /\
  opt_ok (description p) /\ opt_ok (image_url p) /\ opt_ok (sku p) /\
  opt_ok (category p) /\ opt_ok (brand p) /\ active p = true.

Lemma opt_trim_ok v : opt_ok (opt_trim v).
Proof.
  unfold opt_trim. destruct (String.eqb_spec (trim (or_empty v)) "") as [|H];
    [exact I|split; [exact H|apply trim_trim]].
Qed.

Lemma price_or_zero_not_nan n : price_or_zero n <> NaN.
Proof. unfold price_or_zero. destruct (truthy_num n) eqn:E; [|discriminate]. destruct n; discriminate. Qed.

Lemma blank_false v : blank v = false -> exists s, v = Some s /\ trim s <> "".
Proof.
  destruct v as [s|]; [|discriminate]. cbn. intros H. apply orb_false_iff in H.
  destruct H as [_ H]. exists s. split; [reflexivity|]. apply String.eqb_neq. exact H.
Qed.

Lemma csv_product_shape mid row :
  csv_row_errors 0 row = [] ->
  row_shape mid (csv_product mid row) /\
  name (csv_product mid row) <> "" /\ url (csv_product mid row) <> "".
Proof.
  unfold csv_row_errors.
  destruct (blank (field row "name")) eqn:Hn; [discriminate|].
  destruct (csv_price_invalid (field row "price")); [discriminate|].
  destruct (blank (field row "url")) eqn:Hu; [discriminate|]. intros _.
  destruct (blank_false _ Hn) as [sn [En Hsn]].
  destruct (blank_false _ Hu) as [su [Eu Hsu]].
  unfold csv_product. cbn [merchant_id name url price currency description image_url
    sku category brand active].
  rewrite En, Eu. cbn [or_empty].
  destruct (toUpperCase_trim
              (match field row "currency" with
               | Some s => if String.eqb s "" then "EUR" else s
               | None => "EUR" end)) as [Hc1 Hc2].
  repeat split; try apply trim_trim; try apply opt_trim_ok; try assumption.
  apply price_or_zero_not_nan.
Qed.

Lemma csv_row_errors_nil n row : csv_row_errors n row = [] -> csv_row_errors 0 row = [].
Proof.
  unfold csv_row_errors.
  destruct (blank (field row "name")), (csv_price_invalid (field row "price")),
    (blank (field row "url")); cbn; congruence.
Qed.

(** CSV upload (ucp.js lines 446-472): when no row has an error, every
    normalised row carries the merchant's id, a non-empty trimmed name and
    url, a price that is a number, an upper-case trimmed currency, optional
    columns that are NULL or non-empty trimmed texts, and [active = true]. *)
Theorem csv_rows_normalised mid k rs :
  fst (csv_validate mid k rs) = [] ->
  Forall (fun p => row_shape mid p /\ name p <> "" /\ url p <> "")
    (snd (csv_validate mid k rs)).
Proof.
  revert k. induction rs as [|row rs IH]; intros k H; [constructor|].
  cbn [csv_validate] in *. destruct (csv_validate mid (S k) rs) as [es ps] eqn:E.
  cbn [fst snd] in *. apply app_eq_nil in H. destruct H as [H1 H2].
  constructor.
  - apply csv_product_shape. eapply csv_row_errors_nil. exact H1.
  - specialize (IH (S k)). rewrite E in IH. apply IH. exact H2.
Qed.

Lemma csv_rows_normalised_witness :
  fst (csv_validate "m1" 0 [csv_line " Lamp " "9.5"]) = [] /\
  Forall (fun p => row_shape "m1" p /\ name p <> "" /\ url p <> "")
    (snd (csv_validate "m1" 0 [csv_line " Lamp " "9.5"])).
Proof.
  assert (H : fst (csv_validate "m1" 0 [csv_line " Lamp " "9.5"]) = []) by (vm_compute; reflexivity).
  split; [exact H|exact (csv_rows_normalised "m1" 0 _ H)].
Defined.

Lemma json_trim_ok v t : json_trim v = Ret t -> trim t = t.
Proof.
  unfold json_trim. destruct (truthy v); [|intros [= <-]; reflexivity].
  destruct v as [[| | | s | |]|]; try discriminate. intros [= <-]. apply trim_trim.
Qed.

Lemma json_opt_trim_ok v t : json_opt_trim v = Ret t -> opt_ok t.
Proof.
  unfold json_opt_trim. destruct (json_trim v) as [t0|] eqn:E; cbn [bind]; [|discriminate].
  intros [= <-]. apply json_trim_ok in E.
  destruct (String.eqb_spec t0 "") as [|H]; [exact I|split; [exact H|exact E]].
Qed.

Lemma json_currency_ok v c : json_currency v = Ret c ->
  trim c = c /\ toUpperCase c = c.
Proof.
  unfold json_currency. destruct (truthy v); [|intros [= <-]; split; reflexivity].
  destruct v as [[| | | s | |]|]; try discriminate. intros [= <-]. apply toUpperCase_trim.
Qed.

Lemma json_item_shape mid n item e p :
  json_item mid n item = Ret (e, p) -> row_shape mid p.
Proof.
  unfold json_item. intros H. run_res H. injection H as _ <-.
  repeat match goal with
  | E : json_trim _ = Ret _ |- _ => apply json_trim_ok in E
  | E : json_opt_trim _ = Ret _ |- _ => apply json_opt_trim_ok in E
  | E : json_currency _ = Ret _ |- _ => apply json_currency_ok in E
  end.
  unfold row_shape.
  cbn [merchant_id name url price currency description image_url sku category brand active].
  repeat split; solve [assumption | apply price_or_zero_not_nan | tauto].
Qed.

(** JSON upload (ucp.js lines 556-574): when no item has an error, every
    normalised row carries the merchant's id, a trimmed name and url, a
    price that is a number, an upper-case trimmed currency, optional columns
    that are NULL or non-empty trimmed texts, and [active = true]. *)
Theorem json_rows_normalised mid k items P :
  json_validate mid k items = Ret ([], P) -> Forall (row_shape mid) P.
Proof.
  revert k P. induction items as [|it items IH]; intros k P H.
  - injection H as <-. constructor.
  - cbn [json_validate] in H.
    destruct (json_item mid (S k) it) as [[e1 p1]|] eqn:E1; cbn [bind] in H; [|discriminate H].
    destruct (json_validate mid (S k) items) as [[e2 P2]|] eqn:E2;
      cbn [bind fst snd] in H; [|discriminate H].
    injection H as He <-. apply app_eq_nil in He. destruct He as [-> ->].
    constructor; [eapply json_item_shape; exact E1|exact (IH (S k) P2 E2)].
Qed.

Definition lamp_rows : list product :=
  match json_validate "m1" 0 [json_lamp] with Ret (_, P) => P | TypeError => [] end.

Lemma json_rows_normalised_witness :
  json_validate "m1" 0 [json_lamp] = Ret ([], lamp_rows) /\ Forall (row_shape "m1") lamp_rows.
Proof.
  assert (H : json_validate "m1" 0 [json_lamp] = Ret ([], lamp_rows)) by (vm_compute; reflexivity).
  split; [exact H|exact (json_rows_normalised "m1" 0 _ _ H)].
Defined.

Lemma truthy_str s : s <> "" -> truthy (Some (JStr s)) = true.
Proof. intros H. cbn. apply String.eqb_neq in H. rewrite H. reflexivity. Qed.

(** JSON upload (ucp.js lines 557-566): the name and url checks test
    [!item.name] and [!item.url] only, so any non-empty string passes them
    and is stored trimmed: a name or url made of blanks is accepted and
    stored as the empty string (the CSV check rejects it). *)
Theorem json_blank_text_accepted mid n item e p :
  json_item mid n item = Ret (e, p) ->
  (forall s, jget item "name" = Ret (Some (JStr s)) -> s <> "" ->
     ~ In (ErrMissingName "Product" n) e /\ name p = trim s) /\
  (forall s, jget item "url" = Ret (Some (JStr s)) -> s <> "" ->
     ~ In (ErrMissingUrl "Product" n) e /\ url p = trim s).
Proof.
  unfold json_item. intros H. run_res H. injection H as <- <-.
  cbn [name url].
  split; intros s Hs Hne; pose proof (truthy_str s Hne) as Ht.
  - injection Hs as ->.
    match goal with E : json_trim (Some (JStr s)) = Ret ?t |- _ =>
      unfold json_trim in E; rewrite Ht in E; injection E as <- end.
    rewrite Ht. split; [|reflexivity].
    cbn [app]. intros Hin.
    repeat match type of Hin with context [if ?b then _ else _] => destruct b end;
      cbn [app In] in Hin; intuition discriminate.
  - injection Hs as ->.
    match goal with E : json_trim (Some (JStr s)) = Ret ?t |- _ =>
      unfold json_trim in E; rewrite Ht in E; injection E as <- end.
    rewrite Ht. split; [|reflexivity].
    intros Hin.
    repeat match type of Hin with context [if ?b then _ else _] => destruct b end;
      cbn [app In] in Hin; intuition discriminate.
Qed.

Definition blank_item : jval :=
  JObj [("name", JStr "   "); ("price", JNum (Dec 5 0)); ("url", JStr " ")].

Definition blank_row : product :=
  match json_item "m1" 1 blank_item with Ret (_, p) => p | TypeError => old_row "m1" end.

Lemma json_blank_text_accepted_witness :
  json_item "m1" 1 blank_item = Ret ([], blank_row) /\ name blank_row = "" /\
  ((forall s, jget blank_item "name" = Ret (Some (JStr s)) -> s <> "" ->
      ~ In (ErrMissingName "Product" 1) [] /\ name blank_row = trim s) /\
   (forall s, jget blank_item "url" = Ret (Some (JStr s)) -> s <> "" ->
      ~ In (ErrMissingUrl "Product" 1) [] /\ url blank_row = trim s)).
Proof.
  assert (H : json_item "m1" 1 blank_item = Ret ([], blank_row)) by (vm_compute; reflexivity).
  split; [exact H|]. split; [vm_compute; reflexivity|].
  exact (json_blank_text_accepted "m1" 1 blank_item [] blank_row H).
Defined.

(** ** Order of the reported errors *)

Lemma sorted_app_const x l1 l2 :
  Forall (eq x) l1 -> Sorted le l2 -> Forall (le x) l2 -> Sorted le (l1 ++ l2).
Proof.
  induction l1 as [|y l1 IH]; intros Hx Hs Hle; [exact Hs|].
  inversion Hx as [|? ? Hy Hx']; subst y. cbn [app].
  constructor; [apply IH; assumption|].
  destruct l1 as [|z l1]; cbn [app].
  - destruct l2 as [|w l2]; constructor. inversion Hle; assumption.
  - inversion Hx' as [|? ? Hz _]; subst z. constructor. apply le_n.
Qed.

Lemma csv_row_errors_rows n row : Forall (eq n) (map error_row (csv_row_errors n row)).
Proof.
  unfold csv_row_errors.
  destruct (blank (field row "name")), (csv_price_invalid (field row "price")),
    (blank (field row "url")); cbn; repeat constructor.
Qed.

Lemma csv_errors_sorted mid rs : forall k,
  Sorted le (map error_row (fst (csv_validate mid k rs))) /\
  Forall (le (k + 2)) (map error_row (fst (csv_validate mid k rs))).
Proof.
  induction rs as [|row rs IH]; intros k; [split; constructor|].
  cbn [csv_validate]. destruct (IH (S k)) as [Hs Hle].
  destruct (csv_validate mid (S k) rs) as [es ps]. cbn [fst] in *.
  rewrite map_app. pose proof (csv_row_errors_rows (k + 2) row) as Hr.
  split.
  - apply (sorted_app_const (k + 2)); [exact Hr|exact Hs|].
    eapply Forall_impl; [|exact Hle]. intros a Ha. lia.
  - apply Forall_app. split.
    + eapply Forall_impl; [|exact Hr]. intros a <-. apply le_n.
    + eapply Forall_impl; [|exact Hle]. intros a Ha. lia.
Qed.

Lemma json_item_rows mid n item e p :
  json_item mid n item = Ret (e, p) -> Forall (eq n) (map error_row e).
Proof.
  unfold json_item. intros H. run_res H. injection H as <- _.
  repeat match goal with |- context [if ?b then _ else _] => destruct b end;
    cbn; repeat constructor.
Qed.

Lemma json_errors_sorted mid : forall items k E P,
  json_validate mid k items = Ret (E, P) ->
  Sorted le (map error_row E) /\ Forall (le (k + 1)) (map error_row E).
Proof.
  induction items as [|it items IH]; intros k E P H.
  - injection H as <- _. split; constructor.
  - cbn [json_validate] in H.
    destruct (json_item mid (S k) it) as [[e1 p1]|] eqn:E1; cbn [bind] in H; [|discriminate H].
    destruct (json_validate mid (S k) items) as [[e2 P2]|] eqn:E2;
      cbn [bind fst snd] in H; [|discriminate H].
    injection H as <- _. destruct (IH (S k) e2 P2 E2) as [Hs Hle].
    pose proof (json_item_rows _ _ _ _ _ E1) as Hr.
    rewrite map_app. split.
    + apply (sorted_app_const (S k)); [exact Hr|exact Hs|].
      eapply Forall_impl; [|exact Hle]. intros a Ha. lia.
    + apply Forall_app. split.
      * eapply Forall_impl; [|exact Hr]. intros a <-. lia.
      * eapply Forall_impl; [|exact Hle]. intros a Ha. lia.
Qed.

(** Both uploads (ucp.js lines 446-480 and 556-582) list the row errors
    row by row: the row numbers of the collected errors never decrease, so
    the first 20 errors put in the 400 reply are those of the earliest
    faulty rows. *)
Theorem validation_errors_in_row_order :
  (forall mid k rs, Sorted le (map error_row (fst (csv_validate mid k rs)))) /\
  (forall mid k items E P, json_validate mid k items = Ret (E, P) ->
     Sorted le (map error_row E)).
Proof.
  split.
  - intros mid k rs. apply csv_errors_sorted.
  - intros mid k items E P H. exact (proj1 (json_errors_sorted mid items k E P H)).
Qed.

End RowFacts.

Module ExpressFacts.
Import JS Checkout ExpressCreate.
Local Open Scope string_scope.
Local Open Scope list_scope.

(** The PUT body carries all three fields. *)
Definition all3 (b : express_body) : bool :=
  truthy (eb_buyer_info b) && truthy (eb_shipping_address b) && truthy (eb_payment_method b).

Lemma express_update_some s b :
  exists s', fst (express_update (Some s) b) = Some s' /\
    status_of s' = (if all3 b then ReadyForComplete else status_of s).
Proof. eexists. split; reflexivity. Qed.

Lemma express_run_status s bs :
  status_of (express_run s bs) = if existsb all3 bs then ReadyForComplete else status_of s.
Proof.
  revert s. induction bs as [|b bs IH]; intros s; [reflexivity|].
  cbn [express_run existsb].
  destruct (express_update_some s b) as [s' [-> Hs']]. rewrite IH, Hs'.
  destruct (all3 b), (existsb all3 bs); reflexivity.
Qed.

Lemma express_complete_result o s :
  snd (express_complete o (Some s)) =
  if status_eqb (status_of s) ReadyForComplete then CompletedOk o else NotReadyGeneric.
Proof. unfold express_complete. destruct (status_eqb _ _); reflexivity. Qed.

(** Express checkout (ucp.js lines 226-354): a session created by POST
    /checkout-sessions starts incomplete with no buyer, shipping or payment
    data; after any sequence of PUTs, complete succeeds exactly when one of
    the PUTs carried buyer_info, shipping_address and payment_method
    together; the three fields sent in separate PUTs never make it
    completable. *)
Theorem express_checkout_flow line_items s0 r bs o :
  express_create line_items true = (Some s0, r) ->
  status_of s0 = Incomplete /\ buyer_info s0 = None /\ shipping_address s0 = None /\
  payment_method s0 = None /\
  snd (express_complete o (Some (express_run s0 bs))) =
    (if existsb all3 bs then CompletedOk o else NotReadyGeneric).
Proof.
  unfold express_create. intros H.
  destruct line_items as [[| | | | [|x xs] |]|]; try discriminate H.
  injection H as <- _. cbn [status_of buyer_info shipping_address payment_method].
  repeat split. rewrite express_complete_result, express_run_status.
  destruct (existsb all3 bs); reflexivity.
Qed.

Definition sample_items : jval :=
  JArr [JObj [("id", JStr "p1"); ("quantity", JNum (Dec 1 0))]].
Definition sample_buyer : jval := JObj [("email", JStr "ann@example.com")].
Definition sample_address : jval := JObj [("city", JStr "Oslo")].
Definition sample_payment : jval := JObj [("token", JStr "tok_visa")].

Definition created : session :=
  match fst (express_create (Some sample_items) true) with
  | Some s => s
  | None => {| status_of := Incomplete; line_items := sample_items; buyer_info := None;
               shipping_address := None; payment_method := None; order_id := None |}
  end.

Definition three_puts : list express_body :=
  [ {| eb_buyer_info := Some sample_buyer; eb_shipping_address := None;
       eb_payment_method := None |};
    {| eb_buyer_info := None; eb_shipping_address := Some sample_address;
       eb_payment_method := None |};
    {| eb_buyer_info := None; eb_shipping_address := None;
       eb_payment_method := Some sample_payment |} ].

Lemma express_checkout_flow_witness :
  express_create (Some sample_items) true = (Some created, Created Incomplete sample_items) /\
  status_of created = Incomplete /\ buyer_info created = None /\
  shipping_address created = None /\ payment_method created = None /\
  snd (express_complete "order_1" (Some (express_run created three_puts))) =
    (if existsb all3 three_puts then CompletedOk "order_1" else NotReadyGeneric).
Proof.
  assert (H : express_create (Some sample_items) true =
              (Some created, Created Incomplete sample_items)) by reflexivity.
  split; [exact H|]. exact (express_checkout_flow _ _ _ three_puts "order_1" H).
Defined.

(** Express PUT and complete (ucp.js lines 274-354): a PUT carrying all
    three fields sets the status to ready_for_complete whatever the stored
    status, completed included, so complete then succeeds again and
    overwrites the stored order id with the new one. *)
Theorem express_recomplete s b o :
  all3 b = true ->
  exists s', express_complete o (fst (express_update (Some s) b)) = (Some s', CompletedOk o) /\
    status_of s' = Completed /\ order_id s' = Some o.
Proof.
  intros Hb. unfold express_update. cbn [fst]. fold (all3 b). rewrite Hb.
  eexists. split; [reflexivity|split; reflexivity].
Qed.

Definition done_session : session :=
  {| status_of := Completed; line_items := sample_items; buyer_info := Some sample_buyer;
     shipping_address := Some sample_address; payment_method := Some sample_payment;
     order_id := Some "order_1" |}.

Definition full_put : express_body :=
  {| eb_buyer_info := Some sample_buyer; eb_shipping_address := Some sample_address;
     eb_payment_method := Some sample_payment |}.

Lemma express_recomplete_witness :
  all3 full_put = true /\
  exists s', express_complete "order_2" (fst (express_update (Some done_session) full_put))
               = (Some s', CompletedOk "order_2") /\
    status_of s' = Completed /\ order_id s' = Some "order_2".
Proof.
  assert (H : all3 full_put = true) by reflexivity.
  split; [exact H|exact (express_recomplete done_session full_put "order_2" H)].
Defined.

End ExpressFacts.

Module RouterFacts.
Import Router.
Local Open Scope list_scope.
Local Open Scope string_scope.

Lemma list_ascii_of_string_append a b :
  list_ascii_of_string (a ++ b) = (list_ascii_of_string a ++ list_ascii_of_string b)%list.
Proof. induction a as [|c a IH]; [reflexivity|]. cbn. f_equal. exact IH. Qed.

Lemma strip_prefix_app p l : strip_prefix p (p ++ l)%list = Some l.
Proof. induction p as [|c p IH]; [reflexivity|]. cbn. rewrite Ascii.eqb_refl. exact IH. Qed.

Lemma strip_prefix_spec p : forall l r, strip_prefix p l = Some r -> l = (p ++ r)%list.
Proof.
  induction p as [|c p IH]; intros l r H; [injection H as <-; reflexivity|].
  destruct l as [|d l]; [discriminate H|]. cbn in H.
  destruct (Ascii.eqb_spec c d) as [<-|]; [|discriminate H].
  cbn. f_equal. apply IH. exact H.
Qed.

Definition starts_with_slash (l : list ascii) : Prop :=
  match l with c :: _ => is_slash c = true | [] => True end.

Lemma span_noslash_spec l : forall a b, span_noslash l = (a, b) ->
  l = (a ++ b)%list /\ Forall (fun c => is_slash c = false) a /\ starts_with_slash b.
Proof.
  induction l as [|c l IH]; intros a b H.
  - injection H as <- <-. repeat split; constructor.
  - cbn in H. destruct (is_slash c) eqn:Ec.
    + injection H as <- <-. split; [reflexivity|split; [constructor|exact Ec]].
    + destruct (span_noslash l) as [a' b'] eqn:E. injection H as <- <-.
      destruct (IH a' b' eq_refl) as [-> [Ha Hb]].
      split; [reflexivity|split; [constructor; assumption|exact Hb]].
Qed.

Lemma span_noslash_app a b :
  Forall (fun c => is_slash c = false) a -> starts_with_slash b ->
  span_noslash (a ++ b)%list = (a, b).
Proof.
  induction 1 as [|c a Hc _ IH]; intros Hb.
  - destruct b as [|c b]; [reflexivity|]. cbn in *. rewrite Hb. reflexivity.
  - cbn [app span_noslash]. rewrite Hc, (IH Hb). reflexivity.
Qed.

Definition no_slash (id : string) : Prop :=
  Forall (fun c => is_slash c = false) (list_ascii_of_string id).

Lemma not_create_path id : id <> "" ->
  String.eqb ("checkout-sessions/" ++ id) "checkout-sessions" = false.
Proof.
  intros _. apply String.eqb_neq. intros H.
  apply (f_equal list_ascii_of_string) in H. rewrite list_ascii_of_string_append in H.
  discriminate H.
Qed.

Lemma match_session_path id : id <> "" -> no_slash id ->
  match_session ("checkout-sessions/" ++ id) = Some id.
Proof.
  intros Hne Hs. unfold match_session.
  rewrite list_ascii_of_string_append. unfold sessions_prefix. rewrite strip_prefix_app.
  rewrite <- (app_nil_r (list_ascii_of_string id)), span_noslash_app by (exact Hs || exact I).
  destruct id as [|c id]; [contradiction|]. cbn [list_ascii_of_string].
  rewrite <- (string_of_list_ascii_of_string id) at 2. reflexivity.
Qed.

(** Dispatch of the Remix resource route (api.ucp.v1.$.tsx lines 251-270):
    for every non-empty session id without [/], PUT on
    [checkout-sessions/<id>] reaches the update handler and POST on
    [checkout-sessions/<id>/complete] the complete handler, each with that
    id. *)
Theorem action_roundtrip id :
  id <> "" -> no_slash id ->
  action (Some ("checkout-sessions/" ++ id)) "PUT" = UpdateCheckout id /\
  action (Some ("checkout-sessions/" ++ id ++ "/complete")) "POST" = CompleteCheckout id.
Proof.
  intros Hne Hs. split.
  - unfold action. rewrite not_create_path by exact Hne.
    rewrite match_session_path by assumption. reflexivity.
  - unfold action.
    rewrite not_create_path by (destruct id; [contradiction|discriminate]).
    assert (Hm : match_session ("checkout-sessions/" ++ id ++ "/complete") = None).
    { unfold match_session. rewrite !list_ascii_of_string_append.
      unfold sessions_prefix. rewrite strip_prefix_app.
      rewrite span_noslash_app by (exact Hs || reflexivity).
      destruct (list_ascii_of_string id); reflexivity. }
    assert (Hc : match_complete ("checkout-sessions/" ++ id ++ "/complete") = Some id).
    { unfold match_complete. rewrite !list_ascii_of_string_append.
      unfold sessions_prefix. rewrite strip_prefix_app.
      rewrite span_noslash_app by (exact Hs || reflexivity).
      destruct id as [|c id]; [contradiction|]. cbn [list_ascii_of_string].
      replace (string_of_list_ascii (c :: list_ascii_of_string id)) with (String c id)
        by (cbn [string_of_list_ascii]; rewrite string_of_list_ascii_of_string; reflexivity).
      reflexivity. }
    rewrite Hm, Hc. reflexivity.
Qed.

Lemma action_roundtrip_witness :
  ("chk_V1StGXR8" <> "" /\ no_slash "chk_V1StGXR8") /\
  action (Some ("checkout-sessions/" ++ "chk_V1StGXR8")) "PUT" = UpdateCheckout "chk_V1StGXR8" /\
  action (Some ("checkout-sessions/" ++ "chk_V1StGXR8" ++ "/complete")) "POST"
    = CompleteCheckout "chk_V1StGXR8".
Proof.
  assert (H1 : "chk_V1StGXR8" <> "") by discriminate.
  assert (H2 : no_slash "chk_V1StGXR8") by (unfold no_slash; cbn; repeat constructor).
  split; [split; assumption|]. exact (action_roundtrip "chk_V1StGXR8" H1 H2).
Defined.

Lemma list_ascii_of_string_inj a b :
  list_ascii_of_string a = list_ascii_of_string b -> a = b.
Proof.
  intros H. rewrite <- (string_of_list_ascii_of_string a), <- (string_of_list_ascii_of_string b).
  f_equal. exact H.
Qed.

Lemma captured_id c a :
  Forall (fun c => is_slash c = false) (c :: a) ->
  string_of_list_ascii (c :: a) <> "" /\ no_slash (string_of_list_ascii (c :: a)) /\
  list_ascii_of_string (string_of_list_ascii (c :: a)) = c :: a.
Proof.
  intros Hf. split; [discriminate|]. unfold no_slash.
  rewrite list_ascii_of_string_of_list_ascii. split; [exact Hf|reflexivity].
Qed.

Lemma match_session_spec path id :
  match_session path = Some id ->
  path = "checkout-sessions/" ++ id /\ id <> "" /\ no_slash id.
Proof.
  unfold match_session.
  destruct (strip_prefix sessions_prefix (list_ascii_of_string path)) as [l|] eqn:Hp;
    [|discriminate].
  destruct (span_noslash l) as [[|c a] b] eqn:Hs; [discriminate|].
  destruct b as [|x b]; [|discriminate]. intros [= <-].
  apply strip_prefix_spec in Hp. destruct (span_noslash_spec l _ _ Hs) as [-> [Hf _]].
  destruct (captured_id c a Hf) as [Hne [Hns Hl]].
  split; [|split; assumption].
  apply list_ascii_of_string_inj. rewrite list_ascii_of_string_append, Hp, app_nil_r.
  f_equal. cbn [list_ascii_of_string string_of_list_ascii].
  rewrite list_ascii_of_string_of_list_ascii. reflexivity.
Qed.

Lemma match_complete_spec path id :
  match_complete path = Some id ->
  path = "checkout-sessions/" ++ id ++ "/complete" /\ id <> "" /\ no_slash id.
Proof.
  unfold match_complete.
  destruct (strip_prefix sessions_prefix (list_ascii_of_string path)) as [l|] eqn:Hp;
    [|discriminate].
  destruct (span_noslash l) as [[|c a] b] eqn:Hs; [discriminate|].
  destruct (String.eqb_spec (string_of_list_ascii b) "/complete") as [Hb|]; [|discriminate].
  intros [= <-].
  apply strip_prefix_spec in Hp. destruct (span_noslash_spec l _ _ Hs) as [-> [Hf _]].
  destruct (captured_id c a Hf) as [Hne [Hns Hl]].
  split; [|split; assumption].
  apply list_ascii_of_string_inj. rewrite !list_ascii_of_string_append, Hp, <- Hb,
    list_ascii_of_string_of_list_ascii.
  unfold sessions_prefix. f_equal. f_equal. cbn [list_ascii_of_string string_of_list_ascii].
  rewrite list_ascii_of_string_of_list_ascii. reflexivity.
Qed.

(** Dispatch of the Remix resource route (api.ucp.v1.$.tsx lines 251-270),
    read the other way: a request reaches the create handler only as POST on
    exactly [checkout-sessions], the update handler only as PUT on
    [checkout-sessions/<id>], and the complete handler only as POST on
    [checkout-sessions/<id>/complete], with [<id>] non-empty and free of
    [/]; every other request is answered 404. *)
Theorem action_dispatch splat method :
  let path := match splat with Some p => p | None => "" end in
  (action splat method = CreateCheckout ->
     method = "POST" /\ path = "checkout-sessions") /\
  (forall id, action splat method = UpdateCheckout id ->
     method = "PUT" /\ path = "checkout-sessions/" ++ id /\ id <> "" /\ no_slash id) /\
  (forall id, action splat method = CompleteCheckout id ->
     method = "POST" /\ path = "checkout-sessions/" ++ id ++ "/complete" /\
     id <> "" /\ no_slash id).
Proof.
  cbn zeta. unfold action.
  set (path := match splat with Some p => p | None => "" end).
  destruct (String.eqb_spec path "checkout-sessions") as [Hc|Hc];
    destruct (String.eqb_spec method "POST") as [Hpo|Hpo]; cbn [andb];
    [split; [intros _; split; assumption|split; intros id H; discriminate H]| | |];
    (destruct (match_session path) as [sid|] eqn:Hs;
     destruct (String.eqb_spec method "PUT") as [Hpu|Hpu];
     destruct (match_complete path) as [cid|] eqn:Hm);
    split; try (intros H; discriminate H);
    split; intros id H; try discriminate H;
    injection H as <-;
    first [ destruct (match_session_spec _ _ Hs) as [? [? ?]]; repeat split; assumption
          | destruct (match_complete_spec _ _ Hm) as [? [? ?]]; repeat split; assumption ].
Qed.

End RouterFacts.

Module SlugFacts.
Import Slug.
Local Open Scope list_scope.

(** No two adjacent dashes. *)
Definition no_double_dash (l : list ascii) : Prop :=
  forall a b, l <> a ++ dash :: dash :: b.

Fixpoint dd_free (prev : bool) (l : list ascii) : bool :=
  match l with
  | [] => true
  | c :: r => if Ascii.eqb c dash then negb prev && dd_free true r else dd_free false r
  end.

Lemma slug_char_not_dash c : is_slug_char c = true -> Ascii.eqb c dash = false.
Proof.
  intros H. destruct (Ascii.eqb_spec c dash) as [->|]; [discriminate H|reflexivity].
Qed.

Lemma replace_runs_dd_free b l : dd_free b (replace_runs b l) = true.
Proof.
  revert b. induction l as [|c l IH]; intros b; [reflexivity|]. cbn [replace_runs].
  destruct (is_slug_char c) eqn:Ec.
  - cbn [dd_free]. rewrite slug_char_not_dash by exact Ec. apply IH.
  - destruct b; [apply IH|]. cbn [dd_free]. rewrite Ascii.eqb_refl. apply IH.
Qed.

Lemma dd_free_no_double_dash l : forall b, dd_free b l = true -> no_double_dash l.
Proof.
  induction l as [|c l IH]; intros b H a r E.
  - destruct a; discriminate E.
  - destruct a as [|x a].
    + injection E as -> E. subst l. destruct b; cbn in H; discriminate H.
    + injection E as -> E. cbn in H.
      destruct (Ascii.eqb x dash); [apply andb_prop in H; destruct H as [_ H]|];
        exact (IH _ H a r E).
Qed.

Lemma replace_runs_chars b l :
  Forall (fun c => is_slug_char c = true \/ c = dash) (replace_runs b l).
Proof.
  revert b. induction l as [|c l IH]; intros b; [constructor|]. cbn [replace_runs].
  destruct (is_slug_char c) eqn:Ec; [constructor; [left; exact Ec|apply IH]|].
  destruct b; [apply IH|constructor; [right; reflexivity|apply IH]].
Qed.

Lemma is_slug_dash : is_slug_char dash = false.
Proof. reflexivity. Qed.

Lemma replace_runs_filter b l :
  filter is_slug_char (replace_runs b l) = filter is_slug_char l.
Proof.
  revert b. induction l as [|c l IH]; intros b; [reflexivity|]. cbn [replace_runs filter].
  destruct (is_slug_char c) eqn:Ec; cbn [filter]; rewrite ?Ec; [f_equal; apply IH|].
  destruct b; [apply IH|]. cbn [filter]. rewrite is_slug_dash. apply IH.
Qed.

Lemma no_double_dash_infix x l y : no_double_dash (x ++ l ++ y) -> no_double_dash l.
Proof.
  intros H a b E. apply (H (x ++ a) (b ++ y)). rewrite E, <- !app_assoc. reflexivity.
Qed.

Lemma no_double_dash_rev l : no_double_dash l -> no_double_dash (rev l).
Proof.
  intros H a b E. apply (H (rev b) (rev a)).
  rewrite <- (rev_involutive l), E, rev_app_distr. cbn. rewrite <- !app_assoc. reflexivity.
Qed.

Lemma drop_dash_cases l : l = drop_dash l \/ l = dash :: drop_dash l.
Proof.
  destruct l as [|c l]; [left; reflexivity|]. cbn.
  destruct (Ascii.eqb_spec c dash) as [->|]; [right|left]; reflexivity.
Qed.

Lemma drop_dash_head l : no_double_dash l -> forall r, drop_dash l <> dash :: r.
Proof.
  intros Hl r E. destruct (drop_dash_cases l) as [Hc|Hc]; rewrite E in Hc.
  - destruct l as [|c l]; [discriminate E|]. cbn in E.
    destruct (Ascii.eqb_spec c dash) as [->|Hne]; [|injection E as ->; contradiction].
    subst l. apply (Hl [] r). reflexivity.
  - apply (Hl [] r). exact Hc.
Qed.

Lemma drop_dash_filter l : filter is_slug_char (drop_dash l) = filter is_slug_char l.
Proof.
  destruct l as [|c l]; [reflexivity|]. cbn [drop_dash].
  destruct (Ascii.eqb_spec c dash) as [->|]; [|reflexivity].
  cbn [filter]. rewrite is_slug_dash. reflexivity.
Qed.

Lemma sublist_drop_dash l : exists x, l = x ++ drop_dash l.
Proof. destruct (drop_dash_cases l) as [H|H]; [exists []|exists [dash]]; exact H. Qed.

(** The shape of the text before the cut at 50 characters. *)
Lemma strip_dashes_shape l :
  no_double_dash l ->
  no_double_dash (strip_dashes l) /\
  (forall r, strip_dashes l <> dash :: r) /\
  (forall a, strip_dashes l <> a ++ [dash]) /\
  (exists x y, l = x ++ strip_dashes l ++ y) /\
  filter is_slug_char (strip_dashes l) = filter is_slug_char l.
Proof.
  intros Hl. unfold strip_dashes.
  set (X := drop_dash l). set (Y := drop_dash (rev X)).
  destruct (sublist_drop_dash l) as [x Hx]. fold X in Hx.
  destruct (sublist_drop_dash (rev X)) as [y Hy]. fold Y in Hy.
  assert (HX : no_double_dash X)
    by (apply (no_double_dash_infix x X []); rewrite app_nil_r, <- Hx; exact Hl).
  assert (HY : no_double_dash Y).
  { apply (no_double_dash_infix y Y []). rewrite app_nil_r, <- Hy.
    apply no_double_dash_rev. exact HX. }
  assert (HXh : forall r, X <> dash :: r) by (apply drop_dash_head; exact Hl).
  assert (HYh : forall r, Y <> dash :: r)
    by (apply drop_dash_head; apply no_double_dash_rev; exact HX).
  assert (HXY : X = rev Y ++ rev y)
    by (rewrite <- rev_app_distr, <- Hy, rev_involutive; reflexivity).
  split; [apply no_double_dash_rev; exact HY|].
  split.
  - intros r E. apply (HXh (r ++ rev y)). rewrite HXY, E. reflexivity.
  - split.
    + intros a E. apply (HYh (rev a)). rewrite <- (rev_involutive Y), E, rev_app_distr.
      reflexivity.
    + split.
      * exists x, (rev y). rewrite Hx, HXY at 1. rewrite app_assoc. reflexivity.
      * rewrite filter_rev. unfold Y. rewrite drop_dash_filter, filter_rev, rev_involutive.
        unfold X. apply drop_dash_filter.
Qed.

Lemma infix_Forall {A} (P : A -> Prop) x l y : Forall P (x ++ l ++ y) -> Forall P l.
Proof. rewrite !Forall_app. tauto. Qed.

(** generateSlug: the slug is at most 50 characters of [a-z0-9] and dashes,
    never starts with a dash and never has two dashes in a row; when it is
    shorter than 50 it does not end in a dash and keeps every lower-cased
    [a-z0-9] character of the store name, in order. *)
Theorem generateSlug_shape (s : string) :
  let l := list_ascii_of_string (generateSlug s) in
  Forall (fun c => is_slug_char c = true \/ c = dash) l /\
  length l <= 50 /\
  (forall r, l <> dash :: r) /\
  no_double_dash l /\
  (length l < 50 ->
     (forall a, l <> a ++ [dash]) /\
     filter is_slug_char l = filter is_slug_char (map toLowerCase_char (list_ascii_of_string s))).
Proof.
  cbv zeta. unfold generateSlug. rewrite list_ascii_of_string_of_list_ascii.
  set (l0 := map toLowerCase_char (list_ascii_of_string s)).
  set (R := replace_runs false l0).
  destruct (strip_dashes_shape R) as (Hdd & Hhd & Htl & (x & y & Hxy) & Hf).
  { apply (dd_free_no_double_dash R false). apply replace_runs_dd_free. }
  set (T := strip_dashes R) in *.
  pose proof (firstn_skipn 50 T) as HT.
  split.
  - apply (infix_Forall _ [] (firstn 50 T) (skipn 50 T)). cbn [app]. rewrite HT.
    apply (infix_Forall _ x T y). rewrite <- Hxy. apply replace_runs_chars.
  - split; [apply firstn_le_length|].
    split; [intros r E; apply (Hhd (r ++ skipn 50 T)); rewrite <- HT at 1; rewrite E; reflexivity|].
    split; [apply (no_double_dash_infix [] _ (skipn 50 T)); cbn [app]; rewrite HT; exact Hdd|].
    intros Hlen. rewrite firstn_all2.
    + split; [exact Htl|]. rewrite Hf. apply replace_runs_filter.
    + rewrite length_firstn in Hlen. lia.
Qed.

End SlugFacts.
